(** * The frame pipeline of camera-gstreamer: bounded frame queue, capture
      thread and display loop.

    Shallow embedding of [FrameQueue], [captureThread] and [main] of the
    multi-threaded OpenCV + GStreamer demo, and the properties of its
    specification.

    The operations of [FrameQueue] are functions on the state of the
    queue; an operation with undefined behaviour has no result ([None]).
    The two threads are a step relation over the state they share. *)

From Stdlib Require Import List ZArith NArith Bool Lia.
Import ListNotations.

Set Implicit Arguments.

Section Pipeline.

(** A frame is a [cv::Mat].  [push] stores [frame.clone()], a deep copy, so
    the queue never shares a pixel buffer with the producer: frames behave
    as values. *)
Context {Frame : Type}.

(** [frame.empty()] *)
Variable mat_empty : Frame -> bool.

(** ** class FrameQueue *)

(** [queue_] lists the [std::queue] front first; [max_size_] is a [size_t];
    the mutex and the condition variable carry no data. *)
Record FrameQueue : Type := mkFrameQueue {
  queue_ : list Frame;
  max_size_ : N;
  running_ : bool
}.

(** [FrameQueue(size_t max_size = 5) : max_size_(max_size), running_(true)] *)
Definition FrameQueue_new (max_size : N) : FrameQueue :=
  {| queue_ := []; max_size_ := max_size; running_ := true |}.

(** [size()]: [queue_.size()] under the lock. *)
Definition size (q : FrameQueue) : N := N.of_nat (length (queue_ q)).

(** [is_running()] *)
Definition is_running (q : FrameQueue) : bool := running_ q.

(** [queue_.empty()] *)
Definition empty (l : list Frame) : bool :=
  match l with [] => true | _ :: _ => false end.

(** The loop of [push]:
    [while (queue_.size() >= max_size_ && running_) queue_.pop();]
    It returns the frames left in the queue.  [std::queue::pop] on an empty
    queue has undefined behaviour: [None]. *)
Fixpoint drop_oldest (max_size : N) (running : bool) (queue : list Frame)
  : option (list Frame) :=
  if (max_size <=? N.of_nat (length queue))%N && running then
    match queue with
    | [] => None
    | _ :: rest => drop_oldest max_size running rest
    end
  else Some queue.

(** [push(frame)]; [None] is undefined behaviour.  The call holds the lock
    from its first line to its last, and [running_] is read as the one
    value it has during the call. *)
Definition push (frame : Frame) (q : FrameQueue) : option FrameQueue :=
  match drop_oldest (max_size_ q) (running_ q) (queue_ q) with
  | None => None
  | Some kept =>
      if running_ q then
        Some {| queue_ := kept ++ [frame];
                max_size_ := max_size_ q; running_ := running_ q |}
      else
        Some {| queue_ := kept;
                max_size_ := max_size_ q; running_ := running_ q |}
  end.

(** [stop()]: [running_ = false; cond_.notify_all();] *)
Definition stop (q : FrameQueue) : FrameQueue :=
  {| queue_ := queue_ q; max_size_ := max_size_ q; running_ := false |}.

(** The predicate [pop] waits for:
    [[this] { return !queue_.empty() || !running_; }] *)
Definition ready (q : FrameQueue) : bool :=
  negb (empty (queue_ q)) || negb (running_ q).

(** *** Waiting on the condition variable

    While the consumer is suspended in [cond_.wait_for] the lock is
    released and the other thread may act on the queue.  Each [push] and
    each [stop] ends with a notification, so what the other thread does
    reaches the waiting consumer as a sequence of wake-ups: [slept]
    milliseconds after it went to sleep, the actions [during] have been
    performed and the consumer is woken. *)
Inductive action : Type :=
| ActPush (frame : Frame)
| ActStop.

Record wakeup : Type := mkWakeup {
  slept : N;
  during : list action
}.

Definition do_action (a : action) (q : FrameQueue) : option FrameQueue :=
  match a with
  | ActPush frame => push frame q
  | ActStop => Some (stop q)
  end.

Fixpoint do_actions (acts : list action) (q : FrameQueue)
  : option FrameQueue :=
  match acts with
  | [] => Some q
  | a :: acts' =>
      match do_action a q with
      | None => None
      | Some q' => do_actions acts' q'
      end
  end.

(** [cond_.wait_for(lock, rel_time, pred)] is, by the C++ standard,
    [while (!pred()) if (wait_until(lock, deadline) == timeout) return pred();
     return true;]
    [remaining] is the time left to the deadline, [waited] the time spent
    suspended so far (both in milliseconds).  A wake-up that would come at
    or after the deadline, or no wake-up at all, is a timeout.  The result
    is the value returned, the queue as the consumer finds it, and the time
    it was suspended. *)
Fixpoint wait_for (env : list wakeup) (remaining waited : Z) (q : FrameQueue)
  : option (bool * FrameQueue * Z) :=
  if ready q then Some (true, q, waited)
  else
    match env with
    | w :: env' =>
        if (Z.of_N (slept w) <? remaining)%Z then
          match do_actions (during w) q with
          | None => None
          | Some q' =>
              wait_for env' (remaining - Z.of_N (slept w))
                       (waited + Z.of_N (slept w)) q'
          end
        else Some (ready q, q, (waited + Z.max 0 remaining)%Z)
    | [] => Some (ready q, q, (waited + Z.max 0 remaining)%Z)
    end.

(** What [pop] gives back: the returned [bool], the frame assigned to the
    out-parameter ([None]: the caller's frame is not written), the queue
    afterwards and the time the call was suspended. *)
Record pop_result : Type := mkPopResult {
  ok : bool;
  frame_out : option Frame;
  after : FrameQueue;
  waited_ms : Z
}.

(** The part of [pop] after the wait, with the lock held. *)
Definition take_front (q : FrameQueue) (waited : Z) : pop_result :=
  if negb (running_ q) && empty (queue_ q) then
    {| ok := false; frame_out := None; after := q; waited_ms := waited |}
  else
    match queue_ q with
    | front :: rest =>
        {| ok := true; frame_out := Some front;
           after := {| queue_ := rest;
                       max_size_ := max_size_ q; running_ := running_ q |};
           waited_ms := waited |}
    | [] =>
        {| ok := false; frame_out := None; after := q; waited_ms := waited |}
    end.

(** [pop(frame, timeout_ms)] *)
Definition pop (timeout_ms : Z) (env : list wakeup) (q : FrameQueue)
  : option pop_result :=
  match wait_for env timeout_ms 0 q with
  | None => None
  | Some (satisfied, q1, waited) =>
      if negb satisfied then
        Some {| ok := false; frame_out := None; after := q1;
                waited_ms := waited |}
      else Some (take_front q1 waited)
  end.

(** ** Sequential use of the queue

    A script of calls made one after the other, no other thread acting in
    between; a [pop] that finds the queue empty and open sleeps until its
    timeout.  [run] answers the frames delivered by the successful pops, in
    the order delivered, and the queue at the end. *)
Inductive op : Type :=
| OpPush (frame : Frame)
| OpPop (timeout_ms : Z)
| OpStop.

Definition delivered_by (r : pop_result) : list Frame :=
  match frame_out r with
  | Some frame => [frame]
  | None => []
  end.

Fixpoint run (ops : list op) (q : FrameQueue)
  : option (list Frame * FrameQueue) :=
  match ops with
  | [] => Some ([], q)
  | OpPush frame :: ops' =>
      match push frame q with
      | None => None
      | Some q' => run ops' q'
      end
  | OpPop timeout_ms :: ops' =>
      match pop timeout_ms [] q with
      | None => None
      | Some r =>
          match run ops' (after r) with
          | None => None
          | Some (frames, q') => Some (delivered_by r ++ frames, q')
          end
      end
  | OpStop :: ops' => run ops' (stop q)
  end.

(** The frames handed to [push] by a script, in order. *)
Fixpoint pushed (ops : list op) : list Frame :=
  match ops with
  | [] => []
  | OpPush frame :: ops' => frame :: pushed ops'
  | _ :: ops' => pushed ops'
  end.

Definition is_push_or_pop (o : op) : bool :=
  match o with
  | OpStop => false
  | _ => true
  end.

(** No [push] of the script finds the queue full. *)
Fixpoint no_overflow (ops : list op) (q : FrameQueue) : bool :=
  match ops with
  | [] => true
  | OpPush frame :: ops' =>
      (size q <? max_size_ q)%N &&
      match push frame q with
      | None => false
      | Some q' => no_overflow ops' q'
      end
  | OpPop timeout_ms :: ops' =>
      match pop timeout_ms [] q with
      | None => false
      | Some r => no_overflow ops' (after r)
      end
  | OpStop :: ops' => no_overflow ops' (stop q)
  end.

(** [n] calls of [pop] in a row, each with its own timeout and its own
    wake-ups; the results in call order. *)
Fixpoint pops (calls : list (Z * list wakeup)) (q : FrameQueue)
  : option (list pop_result) :=
  match calls with
  | [] => Some []
  | (timeout_ms, env) :: calls' =>
      match pop timeout_ms env q with
      | None => None
      | Some r =>
          match pops calls' (after r) with
          | None => None
          | Some rs => Some (r :: rs)
          end
      end
  end.

(** How many frames the loop of [push] removes from an open queue of
    capacity at least 1 (see [drop_oldest_open]). *)
Definition excess (max_size : N) (queue : list Frame) : nat :=
  S (length queue) - N.to_nat max_size.

(** The queue has capacity [cap] and holds no more than that. *)
Definition within_capacity (cap : N) (q : FrameQueue) : Prop :=
  max_size_ q = cap /\ (size q <= cap)%N.

(** ** main: the queue size

    [size_t queue_size = 5; if (argc >= 6) queue_size = std::atoi(argv[5]);]
    The [int] is converted to the 64-bit [size_t].  The argument is the
    value of [std::atoi(argv[5])] when there is one. *)
Definition size_t_of_int (z : Z) : N := Z.to_N (z mod 2 ^ 64).

Definition main_queue_size (argv5 : option Z) : N :=
  match argv5 with
  | None => 5%N
  | Some z => size_t_of_int z
  end.

(** ** The two threads

    [captureThread] runs in its own thread, the display loop in [main].
    Both are cut into steps at their accesses to what they share: the
    atomic [running] of [main] and the queue.  The throughput bookkeeping
    ([frame_count], [last_time], [capture_fps], [display_fps]) reads and
    writes neither and is left out.  Time is left out too: a suspended
    [pop] may time out at any moment.  A [push] with undefined behaviour
    has no next state. *)
Inductive capture_pc : Type :=
| CapOpen                 (* cv::VideoCapture cap(gst_pipeline, ...) *)
| CapFailFlag             (* running = false; *)
| CapFailStop             (* frameQueue.stop(); return; *)
| CapLoop                 (* while (running) *)
| CapRead                 (* cap.read(frame), frame.empty() *)
| CapPush (frame : Frame) (* frameQueue.push(frame); *)
| CapRelease              (* cap.release(); *)
| CapReturned.

Inductive main_pc : Type :=
| MainLoop                (* while (running ... *)
| MainLoopQueue           (*        ... && frameQueue.is_running()) *)
| MainPop                 (* frameQueue.pop(frame, 1000): lock, predicate *)
| MainWaiting             (* suspended in cond_.wait_for *)
| MainPopFailed           (* if (!running) break; continue; *)
| MainShow                (* if (frame.empty()) continue; cv::imshow *)
| MainKey                 (* int key = cv::waitKey(1); *)
| MainKeyExit             (* running = false; break; *)
| MainStop                (* frameQueue.stop(); *)
| MainJoin                (* capture_thread.join(); *)
| MainReturned.

Record pipeline : Type := mkPipeline {
  running : bool;         (* std::atomic<bool> running(true) *)
  frameQueue : FrameQueue;
  cap_isOpened : bool;    (* cap.isOpened(), false until cap is built *)
  capture : capture_pc;
  display : main_pc;
  frame : option Frame    (* cv::Mat frame of main; None: still empty *)
}.

(** The state when [main] enters its loop: the queue and the flag are
    built, the capture thread is started. *)
Definition pipeline_start (queue_size : N) : pipeline :=
  {| running := true;
     frameQueue := FrameQueue_new queue_size;
     cap_isOpened := false;
     capture := CapOpen;
     display := MainLoop;
     frame := None |}.

Definition set_running (b : bool) (s : pipeline) : pipeline :=
  {| running := b; frameQueue := frameQueue s;
     cap_isOpened := cap_isOpened s;
     capture := capture s; display := display s; frame := frame s |}.

Definition set_frameQueue (q : FrameQueue) (s : pipeline) : pipeline :=
  {| running := running s; frameQueue := q;
     cap_isOpened := cap_isOpened s;
     capture := capture s; display := display s; frame := frame s |}.

Definition set_cap_isOpened (b : bool) (s : pipeline) : pipeline :=
  {| running := running s; frameQueue := frameQueue s;
     cap_isOpened := b;
     capture := capture s; display := display s; frame := frame s |}.

Definition set_capture (pc : capture_pc) (s : pipeline) : pipeline :=
  {| running := running s; frameQueue := frameQueue s;
     cap_isOpened := cap_isOpened s;
     capture := pc; display := display s; frame := frame s |}.

Definition set_display (pc : main_pc) (s : pipeline) : pipeline :=
  {| running := running s; frameQueue := frameQueue s;
     cap_isOpened := cap_isOpened s;
     capture := capture s; display := pc; frame := frame s |}.

Definition set_frame (f : option Frame) (s : pipeline) : pipeline :=
  {| running := running s; frameQueue := frameQueue s;
     cap_isOpened := cap_isOpened s;
     capture := capture s; display := display s; frame := f |}.

(** What a step does that can be seen from outside. *)
Inductive event : Type :=
| EvOpen (opened : bool)              (* the capture source was opened *)
| EvStoreRunning                      (* running = false *)
| EvQueueStop                         (* frameQueue.stop() *)
| EvRead (read_ok : bool) (frame : Frame)
| EvPush (frame : Frame)
| EvPopReturn (result : bool)
| EvShow (frame : option Frame)
| EvKey (key : Z)
| EvJoin
| EvSilent.

(** [key == 'q' || key == 'Q' || key == 27] *)
Definition exit_key (key : Z) : bool :=
  ((key =? 113) || (key =? 81) || (key =? 27))%Z.

(** [main] when [pop] has returned [r]:
    [if (!frameQueue.pop(frame, 1000)) ...] *)
Definition after_pop (r : pop_result) (s : pipeline) : pipeline :=
  set_display (if negb (ok r) then MainPopFailed else MainShow)
    (set_frame (match frame_out r with
                | Some f => Some f
                | None => frame s
                end)
       (set_frameQueue (after r) s)).

(** [frame.empty()] on the frame of [main]. *)
Definition frame_empty (f : option Frame) : bool :=
  match f with
  | None => true
  | Some f => mat_empty f
  end.

(** [captureThread(frameQueue, gst_pipeline, running, capture_fps)] *)
Inductive captureThread : pipeline -> event -> pipeline -> Prop :=
| capture_open : forall s opened,
    capture s = CapOpen ->
    captureThread s (EvOpen opened)
      (set_capture (if opened then CapLoop else CapFailFlag)
                   (set_cap_isOpened opened s))
| capture_fail_flag : forall s,
    capture s = CapFailFlag ->
    captureThread s EvStoreRunning
      (set_capture CapFailStop (set_running false s))
| capture_fail_stop : forall s,
    capture s = CapFailStop ->
    captureThread s EvQueueStop
      (set_capture CapReturned (set_frameQueue (stop (frameQueue s)) s))
| capture_loop : forall s,
    capture s = CapLoop ->
    captureThread s EvSilent
      (set_capture (if running s then CapRead else CapRelease) s)
| capture_read : forall s read_ok frame,
    capture s = CapRead ->
    captureThread s (EvRead read_ok frame)
      (set_capture (if negb read_ok then CapLoop
                    else if mat_empty frame then CapLoop
                    else CapPush frame) s)
| capture_push : forall s frame q',
    capture s = CapPush frame ->
    push frame (frameQueue s) = Some q' ->
    captureThread s (EvPush frame)
      (set_capture CapLoop (set_frameQueue q' s))
| capture_release : forall s,
    capture s = CapRelease ->
    captureThread s EvSilent (set_capture CapReturned s).

(** The display loop and the shutdown of [main]. *)
Inductive main : pipeline -> event -> pipeline -> Prop :=
| main_loop : forall s,
    display s = MainLoop ->
    main s EvSilent
      (set_display (if running s then MainLoopQueue else MainStop) s)
| main_loop_queue : forall s,
    display s = MainLoopQueue ->
    main s EvSilent
      (set_display (if is_running (frameQueue s) then MainPop
                    else MainStop) s)
| main_pop_ready : forall s r,
    display s = MainPop ->
    ready (frameQueue s) = true ->
    r = take_front (frameQueue s) 0 ->
    main s (EvPopReturn (ok r)) (after_pop r s)
| main_pop_wait : forall s,
    display s = MainPop ->
    ready (frameQueue s) = false ->
    main s EvSilent (set_display MainWaiting s)
| main_woken : forall s r,
    display s = MainWaiting ->
    ready (frameQueue s) = true ->
    r = take_front (frameQueue s) 0 ->
    main s (EvPopReturn (ok r)) (after_pop r s)
| main_timeout : forall s,
    display s = MainWaiting ->
    ready (frameQueue s) = false ->
    main s (EvPopReturn false) (set_display MainPopFailed s)
| main_pop_failed : forall s,
    display s = MainPopFailed ->
    main s EvSilent
      (set_display (if negb (running s) then MainStop else MainLoop) s)
| main_show : forall s,
    display s = MainShow ->
    main s (if frame_empty (frame s) then EvSilent else EvShow (frame s))
      (set_display (if frame_empty (frame s) then MainLoop else MainKey) s)
| main_key : forall s key,
    display s = MainKey ->
    main s (EvKey key)
      (set_display (if exit_key key then MainKeyExit else MainLoop) s)
| main_key_exit : forall s,
    display s = MainKeyExit ->
    main s EvStoreRunning (set_display MainStop (set_running false s))
| main_stop : forall s,
    display s = MainStop ->
    main s EvQueueStop
      (set_display MainJoin (set_frameQueue (stop (frameQueue s)) s))
| main_join : forall s,
    display s = MainJoin ->
    capture s = CapReturned ->
    main s EvJoin (set_display MainReturned s).

(** A step of the pipeline is a step of one of its two threads. *)
Inductive step (s : pipeline) (e : event) (s' : pipeline) : Prop :=
| step_capture : captureThread s e s' -> step s e s'
| step_main : main s e s' -> step s e s'.

(** A run of the pipeline with its history, the latest event first. *)
Inductive reaches (s0 : pipeline) : list event -> pipeline -> Prop :=
| reaches_start : reaches s0 [] s0
| reaches_step : forall history s e s',
    reaches s0 history s ->
    step s e s' ->
    reaches s0 (e :: history) s'.

(** The number of stores to [running] in a history. *)
Fixpoint stores (history : list event) : nat :=
  match history with
  | [] => 0
  | EvStoreRunning :: h => S (stores h)
  | _ :: h => stores h
  end.

Definition is_read_or_push (e : event) : bool :=
  match e with
  | EvRead _ _ | EvPush _ => true
  | _ => false
  end.

(** *** What holds of every state the pipeline reaches *)

(** The capture thread found its source closed. *)
Definition capture_failed (pc : capture_pc) : bool :=
  match pc with
  | CapFailFlag | CapFailStop | CapReturned => true
  | _ => false
  end.

(** ... and has stored [false] to [running]. *)
Definition capture_stored (pc : capture_pc) : bool :=
  match pc with
  | CapFailStop | CapReturned => true
  | _ => false
  end.

(** The capture thread is at or past its loop. *)
Definition capture_in_loop (pc : capture_pc) : bool :=
  match pc with
  | CapLoop | CapRead | CapPush _ | CapRelease | CapReturned => true
  | _ => false
  end.

(** [main] holds a frame it popped. *)
Definition main_has_frame (pc : main_pc) : bool :=
  match pc with
  | MainShow | MainKey | MainKeyExit => true
  | _ => false
  end.

(** [main] has left its loop. *)
Definition main_left_loop (pc : main_pc) : bool :=
  match pc with
  | MainStop | MainJoin | MainReturned => true
  | _ => false
  end.

Definition pipeline_inv (history : list event) (s : pipeline) : Prop :=
  (forall b, In (EvOpen b) history ->
             cap_isOpened s = b /\ capture s <> CapOpen) /\
  running s = (stores history =? 0) /\
  if cap_isOpened s then
    capture_in_loop (capture s) = true /\
    (stores history = 0 \/
     (stores history = 1 /\ main_left_loop (display s) = true))
  else
    (capture s = CapOpen \/ capture_failed (capture s) = true) /\
    queue_ (frameQueue s) = [] /\
    main_has_frame (display s) = false /\
    existsb is_read_or_push history = false /\
    stores history = (if capture_stored (capture s) then 1 else 0) /\
    (capture s = CapReturned -> running_ (frameQueue s) = false).

(** ** Notions used by further properties *)

(** [l1] is [l2] with some elements left out, the others in their order. *)
Inductive subseq {A : Type} : list A -> list A -> Prop :=
| subseq_nil : subseq [] []
| subseq_skip : forall x l1 l2, subseq l1 l2 -> subseq l1 (x :: l2)
| subseq_keep : forall x l1 l2, subseq l1 l2 -> subseq (x :: l1) (x :: l2).

(** The script that pushes the frames of a list, one after the other. *)
Definition push_all (frames : list Frame) : list op := map OpPush frames.

(** The frame [main] has popped and not yet shown. *)
Definition popped_frame (s : pipeline) : list Frame :=
  match display s, frame s with
  | MainShow, Some f => [f]
  | _, _ => []
  end.

(** The frame the capture thread has read and not yet pushed. *)
Definition read_frame (s : pipeline) : list Frame :=
  match capture s with
  | CapPush f => [f]
  | _ => []
  end.

(** The frames shown, the frames pushed, and the frames read that were
    good (the read succeeded and the frame is not empty), each in the order
    of time, the oldest first. *)
Fixpoint shown (history : list event) : list Frame :=
  match history with
  | [] => []
  | e :: h =>
      shown h ++ match e with
                 | EvShow (Some f) => [f]
                 | _ => []
                 end
  end.

Fixpoint pushed_frames (history : list event) : list Frame :=
  match history with
  | [] => []
  | e :: h =>
      pushed_frames h ++ match e with
                         | EvPush f => [f]
                         | _ => []
                         end
  end.

Fixpoint read_frames (history : list event) : list Frame :=
  match history with
  | [] => []
  | e :: h =>
      read_frames h ++ match e with
                       | EvRead read_ok f =>
                           if read_ok && negb (mat_empty f) then [f] else []
                       | _ => []
                       end
  end.

(** The number of reads and the number of pushes in a history. *)
Fixpoint reads (history : list event) : nat :=
  match history with
  | [] => 0
  | EvRead _ _ :: h => S (reads h)
  | _ :: h => reads h
  end.

Fixpoint pushes (history : list event) : nat :=
  match history with
  | [] => 0
  | EvPush _ :: h => S (pushes h)
  | _ :: h => pushes h
  end.

(** How many steps the capture thread is from its return, at most, once
    [running] is [false]; how many reads and how many pushes it can still
    make then. *)
Definition capture_steps_left (pc : capture_pc) : nat :=
  match pc with
  | CapRead => 4
  | CapOpen | CapPush _ => 3
  | CapLoop | CapFailFlag => 2
  | CapFailStop | CapRelease => 1
  | CapReturned => 0
  end.

Definition reads_left (pc : capture_pc) : nat :=
  match pc with
  | CapRead => 1
  | _ => 0
  end.

Definition pushes_left (pc : capture_pc) : nat :=
  match pc with
  | CapRead | CapPush _ => 1
  | _ => 0
  end.

(** No empty frame is on its way through the pipeline. *)
Definition no_empty_frame (s : pipeline) : Prop :=
  Forall (fun f => mat_empty f = false) (queue_ (frameQueue s)) /\
  (forall f, capture s = CapPush f -> mat_empty f = false) /\
  (forall f, frame s = Some f -> mat_empty f = false) /\
  (display s = MainShow -> frame s <> None).

(** [running] is [false] before the queue is stopped and before [main]
    leaves its loop. *)
Definition shutdown_inv (s : pipeline) : Prop :=
  (capture s = CapFailStop -> running s = false) /\
  (running_ (frameQueue s) = false -> running s = false) /\
  (main_left_loop (display s) = true -> running s = false) /\
  (display s = MainJoin \/ display s = MainReturned ->
   running_ (frameQueue s) = false) /\
  (display s = MainReturned -> capture s = CapReturned).

(** The frames keep their order on their way through the pipeline. *)
Definition order_inv (history : list event) (s : pipeline) : Prop :=
  subseq (shown history ++ popped_frame s ++ queue_ (frameQueue s))
         (pushed_frames history) /\
  pushed_frames history ++ read_frame s = read_frames history.

(** ** The throughput counters

    [captureThread] and the display loop of [main] both count the frames
    they handle, the same way:
    [frame_count++; current_time = steady_clock::now();
     elapsed = duration_cast<milliseconds>(current_time - last_time).count();
     if (elapsed >= 1000) { capture_fps = frame_count; frame_count = 0;
                            last_time = current_time; }]
    [frame_count] is an [int]: incrementing [INT_MAX] is undefined
    ([None]).  A time point of the steady clock counts nanoseconds, and the
    cast to milliseconds rounds toward zero. *)
Record throughput : Type := mkThroughput {
  frame_count : Z;
  last_time : Z
}.

Definition INT_MAX : Z := 2 ^ 31 - 1.

Definition elapsed_ms (current_time last : Z) : Z :=
  Z.quot (current_time - last) 1000000.

(** One frame handled at [current_time]: the counter afterwards and the
    value stored to [capture_fps] (or [display_fps]), if one is. *)
Definition count_frame (current_time : Z) (c : throughput)
  : option (throughput * option Z) :=
  if (frame_count c <? INT_MAX)%Z then
    if (1000 <=? elapsed_ms current_time (last_time c))%Z then
      Some ({| frame_count := 0; last_time := current_time |},
            Some (frame_count c + 1)%Z)
    else
      Some ({| frame_count := frame_count c + 1;
               last_time := last_time c |}, None)
  else None.

(** The frames handled at the times of a list, one after the other: the
    counter at the end and the values stored, in order. *)
Fixpoint count_frames (times : list Z) (c : throughput)
  : option (throughput * list Z) :=
  match times with
  | [] => Some (c, [])
  | current_time :: times' =>
      match count_frame current_time c with
      | None => None
      | Some (c', stored) =>
          match count_frames times' c' with
          | None => None
          | Some (c'', values) =>
              Some (c'', match stored with
                         | Some v => v :: values
                         | None => values
                         end)
          end
      end
  end.

Definition total (values : list Z) : Z := fold_right Z.add 0%Z values.

(** ** The kernel of opencl-native

    [__kernel void vector_add(A, B, C, n)
     { int id = get_global_id(0); if (id < n) C[id] = A[id] + B[id]; }]
    The element type and its addition are parameters.  [get_global_id]
    gives a [size_t], which is cut to the [int] [id]; [n] is an
    [unsigned int], so the comparison converts [id] to [unsigned int].
    A read or a write outside a buffer is undefined ([None]). *)
Definition int_of_size_t (g : Z) : Z := (g + 2 ^ 31) mod 2 ^ 32 - 2 ^ 31.

Definition uint_of_int (i : Z) : Z := i mod 2 ^ 32.

Definition load {F : Type} (buffer : list F) (i : Z) : option F :=
  if (i <? 0)%Z then None else nth_error buffer (Z.to_nat i).

Fixpoint store_at {F : Type} (buffer : list F) (i : nat) (v : F)
  : option (list F) :=
  match buffer, i with
  | [], _ => None
  | _ :: rest, 0 => Some (v :: rest)
  | x :: rest, S i' =>
      match store_at rest i' v with
      | None => None
      | Some rest' => Some (x :: rest')
      end
  end.

Definition store {F : Type} (buffer : list F) (i : Z) (v : F)
  : option (list F) :=
  if (i <? 0)%Z then None else store_at buffer (Z.to_nat i) v.

(** One work-item, with global id [global_id]. *)
Definition vector_add {F : Type} (add : F -> F -> F)
           (A B C : list F) (n : Z) (global_id : Z) : option (list F) :=
  let id := int_of_size_t global_id in
  if (uint_of_int id <? n)%Z then
    match load A id, load B id with
    | Some a, Some b => store C id (add a b)
    | _, _ => None
    end
  else Some C.

(** The work-items of an index space run one after the other, in the
    order of a list of their global ids.  (They touch disjoint elements of
    [C] and only read [A] and [B].) *)
Fixpoint run_work_items {F : Type} (add : F -> F -> F)
         (A B : list F) (n : Z) (order : list Z) (C : list F)
  : option (list F) :=
  match order with
  | [] => Some C
  | global_id :: rest =>
      match vector_add add A B C n global_id with
      | None => None
      | Some C' => run_work_items add A B n rest C'
      end
  end.

(** What the kernel is to leave in [C] at index [j]. *)
Definition sum_at {F : Type} (add : F -> F -> F) (A B : list F) (j : nat)
  : option F :=
  match nth_error A j, nth_error B j with
  | Some a, Some b => Some (add a b)
  | _, _ => None
  end.

(** ** main of opencl-native: the choice of the device

    [cl_uint numDevices;
     error = clGetDeviceIDs(platforms[0], CL_DEVICE_TYPE_GPU, 0, nullptr,
                            &numDevices);
     if (error != CL_SUCCESS || numDevices == 0) {
         error = clGetDeviceIDs(platforms[0], CL_DEVICE_TYPE_CPU, 0, nullptr,
                                &numDevices);
         checkError(error, "Getting CPU device count");
     }
     if (numDevices == 0) return EXIT_FAILURE;
     std::vector<cl_device_id> devices(numDevices); ... devices[0]]
    What a call of [clGetDeviceIDs] did is an input: the error it returned
    and the count it stored to [numDevices], if it stored one.
    [numDevices] is not initialised: reading it before a count is stored is
    undefined. *)
Definition CL_SUCCESS : Z := 0.

Record device_query : Type := mkDeviceQuery {
  query_error : Z;
  query_count : option Z
}.

Inductive selection : Type :=
| UndefinedRead              (* numDevices read before it is set *)
| ExitFailure                (* checkError: exit(EXIT_FAILURE) *)
| ReturnFailure              (* "No OpenCL devices found!" *)
| Devices (numDevices : Z).  (* devices(numDevices), devices[0] *)

(** [numDevices] after a query. *)
Definition assign_count (numDevices : option Z) (q : device_query)
  : option Z :=
  match query_count q with
  | Some n => Some n
  | None => numDevices
  end.

(** [if (numDevices == 0) return EXIT_FAILURE;] and on. *)
Definition use_devices (numDevices : option Z) : selection :=
  match numDevices with
  | None => UndefinedRead
  | Some n => if (n =? 0)%Z then ReturnFailure else Devices n
  end.

Definition choose_devices (gpu cpu : device_query) : selection :=
  let numDevices := assign_count None gpu in
  if negb (query_error gpu =? CL_SUCCESS)%Z then
    let numDevices := assign_count numDevices cpu in
    if negb (query_error cpu =? CL_SUCCESS)%Z then ExitFailure
    else use_devices numDevices
  else
    match numDevices with
    | None => UndefinedRead
    | Some n =>
        if (n =? 0)%Z then
          let numDevices := assign_count numDevices cpu in
          if negb (query_error cpu =? CL_SUCCESS)%Z then ExitFailure
          else use_devices numDevices
        else use_devices numDevices
    end.

(** What [clGetDeviceIDs] promises: when it returns [CL_SUCCESS] it has
    stored a count, a [cl_uint]. *)
Definition query_kept_promise (q : device_query) : Prop :=
  query_error q = CL_SUCCESS ->
  exists n, query_count q = Some n /\ (0 <= n < 2 ^ 32)%Z.

(** Projections of an updated pipeline state. *)
Ltac pipeline_fields :=
  unfold after_pop in *;
  cbn [running frameQueue cap_isOpened capture display frame
       set_running set_frameQueue set_cap_isOpened set_capture
       set_display set_frame] in *.

(** The cases of a step. *)
Ltac step_cases H :=
  let Hc := fresh "Hcapture" in
  let Hm := fresh "Hmain" in
  destruct H as [Hc | Hm]; [destruct Hc | destruct Hm].

(** Case analysis on the conditions of the goal. *)
Ltac split_ifs :=
  repeat match goal with
         | |- context [if ?c then _ else _] => destruct c eqn:?
         end.

(** Case analysis on the conditions of the hypotheses. *)
Ltac split_ifs_hyp :=
  repeat match goal with
         | H : context [if ?c then _ else _] |- _ => destruct c eqn:?
         end.

(** * Properties *)

(** ** The queue *)

Lemma drop_oldest_closed (m : N) (l : list Frame) :
  drop_oldest m false l = Some l.
Proof.
  destruct l; simpl; rewrite andb_false_r; reflexivity.
Qed.

Lemma drop_oldest_room (m : N) (r : bool) (l : list Frame) :
  (N.of_nat (length l) < m)%N -> drop_oldest m r l = Some l.
Proof.
  intros Hlt.
  assert (Hc : (m <=? N.of_nat (length l))%N = false)
    by (apply N.leb_gt; exact Hlt).
  destruct l; simpl in *; rewrite Hc; reflexivity.
Qed.

Lemma drop_oldest_open (m : N) (l : list Frame) :
  (1 <= m)%N -> drop_oldest m true l = Some (skipn (excess m l) l).
Proof.
  intros Hm. unfold excess.
  induction l as [|a l IH].
  - simpl. destruct (m <=? 0)%N eqn:Hc.
    + apply N.leb_le in Hc. lia.
    + simpl. now rewrite skipn_nil.
  - cbn [drop_oldest].
    destruct (m <=? N.of_nat (length (a :: l)))%N eqn:Hc; cbn [andb].
    + rewrite IH. apply N.leb_le in Hc. cbn [length] in *.
      replace (S (S (length l)) - N.to_nat m)
        with (S (S (length l) - N.to_nat m)) by lia.
      reflexivity.
    + apply N.leb_gt in Hc. cbn [length] in *.
      replace (S (S (length l)) - N.to_nat m) with 0 by lia.
      reflexivity.
Qed.

Lemma drop_oldest_zero (l : list Frame) : drop_oldest 0 true l = None.
Proof.
  induction l as [|a l IH]; simpl; [reflexivity | exact IH].
Qed.

Lemma push_closed (f : Frame) (q : FrameQueue) :
  running_ q = false -> push f q = Some q.
Proof.
  intros Hr. unfold push. rewrite Hr, drop_oldest_closed.
  destruct q; simpl in *; subst; reflexivity.
Qed.

Lemma push_room (f : Frame) (q : FrameQueue) :
  running_ q = true -> (size q < max_size_ q)%N ->
  push f q = Some {| queue_ := queue_ q ++ [f];
                     max_size_ := max_size_ q; running_ := true |}.
Proof.
  intros Hr Hlt. unfold push.
  rewrite drop_oldest_room by exact Hlt. now rewrite Hr.
Qed.

Lemma push_open (f : Frame) (q : FrameQueue) :
  running_ q = true -> (1 <= max_size_ q)%N ->
  push f q =
  Some {| queue_ := skipn (excess (max_size_ q) (queue_ q)) (queue_ q) ++ [f];
          max_size_ := max_size_ q; running_ := true |}.
Proof.
  intros Hr Hm. unfold push.
  rewrite Hr, drop_oldest_open by exact Hm. reflexivity.
Qed.

Lemma ready_closed (q : FrameQueue) : running_ q = false -> ready q = true.
Proof.
  intros Hr. unfold ready. rewrite Hr. apply orb_true_r.
Qed.

Lemma wait_for_ready (env : list wakeup) (t w : Z) (q : FrameQueue) :
  ready q = true -> wait_for env t w q = Some (true, q, w).
Proof.
  intros Hr. destruct env; simpl; rewrite Hr; reflexivity.
Qed.

Lemma wait_for_alone (t w : Z) (q : FrameQueue) :
  ready q = false -> wait_for [] t w q = Some (false, q, (w + Z.max 0 t)%Z).
Proof.
  intros Hr. simpl. rewrite Hr. reflexivity.
Qed.

Lemma wait_for_poll (env : list wakeup) (t w : Z) (q : FrameQueue) :
  (t <= 0)%Z -> ready q = false -> wait_for env t w q = Some (false, q, w).
Proof.
  intros Ht Hr.
  assert (Hw : (w + Z.max 0 t = w)%Z) by lia.
  destruct env as [|k env]; simpl; rewrite Hr.
  - now rewrite Hw.
  - assert (Hc : (Z.of_N (slept k) <? t)%Z = false)
      by (apply Z.ltb_ge; lia).
    now rewrite Hc, Hw.
Qed.

Lemma pop_ready (env : list wakeup) (t : Z) (q : FrameQueue) :
  ready q = true -> pop t env q = Some (take_front q 0).
Proof.
  intros Hr. unfold pop. now rewrite wait_for_ready.
Qed.

Lemma pop_alone_idle (t : Z) (q : FrameQueue) :
  ready q = false ->
  pop t [] q = Some {| ok := false; frame_out := None; after := q;
                       waited_ms := Z.max 0 t |}.
Proof.
  intros Hr. unfold pop. now rewrite wait_for_alone.
Qed.

Lemma take_front_cons (f : Frame) (l : list Frame) (m : N) (r : bool) (w : Z) :
  take_front {| queue_ := f :: l; max_size_ := m; running_ := r |} w =
  {| ok := true; frame_out := Some f;
     after := {| queue_ := l; max_size_ := m; running_ := r |};
     waited_ms := w |}.
Proof.
  unfold take_front. simpl. now rewrite andb_false_r.
Qed.

Lemma take_front_nil (q : FrameQueue) (w : Z) :
  queue_ q = [] ->
  take_front q w =
  {| ok := false; frame_out := None; after := q; waited_ms := w |}.
Proof.
  intros Hq. unfold take_front. rewrite Hq. simpl.
  now destruct (negb (running_ q)).
Qed.

(** C1.  A script of pushes and pops run on an open queue, in which no push
    finds the queue full, runs to its end, and the frames already buffered
    followed by the frames pushed are, in this order, the frames the
    successful pops delivered followed by the frames still buffered: the
    pops deliver the frames in the order they were pushed.  (A fresh queue
    is the case [queue_ q = []].) *)
Theorem C1_fifo_without_overflow (ops : list op) (q : FrameQueue) :
  running_ q = true ->
  forallb is_push_or_pop ops = true ->
  no_overflow ops q = true ->
  exists delivered q',
    run ops q = Some (delivered, q') /\
    queue_ q ++ pushed ops = delivered ++ queue_ q' /\
    running_ q' = true.
Proof.
  revert q.
  induction ops as [|o ops IH]; intros q Hrun Hops Hno.
  - exists [], q. simpl. now rewrite app_nil_r.
  - destruct o as [f | t | ]; cbn [forallb is_push_or_pop andb] in Hops.
    + cbn [no_overflow] in Hno. apply andb_true_iff in Hno as [Hlt Hno].
      apply N.ltb_lt in Hlt.
      cbn [run pushed]. rewrite (push_room f q Hrun Hlt) in *.
      apply IH in Hno as (d & q' & Hr & Heq & Hq'); [ | reflexivity | exact Hops].
      exists d, q'. cbn [queue_] in Heq.
      rewrite <- app_assoc in Heq. auto.
    + cbn [no_overflow run pushed] in *.
      destruct q as [[|f l] m r]; cbn [running_] in Hrun; subst r.
      * rewrite pop_alone_idle in * by reflexivity. cbn [after] in *.
        apply IH in Hno as (d & q' & Hr & Heq & Hq'); [ | reflexivity | exact Hops].
        exists d, q'. rewrite Hr. auto.
      * rewrite pop_ready, take_front_cons in * by reflexivity.
        cbn [after] in *.
        apply IH in Hno as (d & q' & Hr & Heq & Hq'); [ | reflexivity | exact Hops].
        exists (f :: d), q'. rewrite Hr. cbn [queue_] in *.
        unfold delivered_by. cbn [frame_out app]. rewrite Heq. auto.
    + discriminate.
Qed.

Lemma excess_split (m : N) (l : list Frame) :
  (1 <= m)%N -> (m <= N.of_nat (length l))%N ->
  let removed := firstn (excess m l) l in
  let kept := skipn (excess m l) l in
  l = removed ++ kept /\
  length removed = length l - N.to_nat m + 1 /\
  N.of_nat (length kept) = (m - 1)%N.
Proof.
  intros Hm Hfull. cbn zeta. unfold excess.
  rewrite firstn_skipn, length_firstn, length_skipn.
  repeat split; lia.
Qed.

(** C2.  On an open queue of capacity at least 1 that holds [max_size_]
    frames or more, [push] removes frames from the front, the oldest first
    and at least one, until [max_size_ - 1] are left, and appends the new
    frame; on a queue exactly full it removes the front frame alone.
    Pushing [a], [b], [c] into a fresh queue of capacity 2 and popping
    twice delivers [b] then [c]. *)
Theorem C2_push_on_full_drops_oldest :
  (forall (f : Frame) (q : FrameQueue),
      running_ q = true -> (1 <= max_size_ q)%N ->
      (max_size_ q <= size q)%N ->
      exists removed kept,
        queue_ q = removed ++ kept /\
        removed <> [] /\
        N.of_nat (length kept) = (max_size_ q - 1)%N /\
        push f q = Some {| queue_ := kept ++ [f];
                           max_size_ := max_size_ q; running_ := true |}) /\
  (forall (f : Frame) (q : FrameQueue),
      running_ q = true -> (1 <= max_size_ q)%N ->
      size q = max_size_ q ->
      push f q = Some {| queue_ := tl (queue_ q) ++ [f];
                         max_size_ := max_size_ q; running_ := true |}) /\
  (forall (a b c : Frame) (t1 t2 : Z),
      run [OpPush a; OpPush b; OpPush c; OpPop t1; OpPop t2]
          (FrameQueue_new 2)
      = Some ([b; c], FrameQueue_new 2)).
Proof.
  split; [ | split].
  - intros f q Hrun Hm Hfull. unfold size in Hfull.
    destruct (excess_split (queue_ q) Hm Hfull) as (Hsplit & Hlen & Hkept).
    exists (firstn (excess (max_size_ q) (queue_ q)) (queue_ q)),
           (skipn (excess (max_size_ q) (queue_ q)) (queue_ q)).
    repeat split.
    + exact Hsplit.
    + intros Hnil. rewrite Hnil in Hlen. simpl in Hlen. lia.
    + exact Hkept.
    + apply push_open; assumption.
  - intros f q Hrun Hm Hfull. rewrite push_open by assumption.
    unfold size in Hfull. unfold excess.
    replace (S (length (queue_ q)) - N.to_nat (max_size_ q)) with 1 by lia.
    destruct (queue_ q); reflexivity.
  - intros a b c t1 t2. reflexivity.
Qed.

Lemma push_within (cap : N) (f : Frame) (q : FrameQueue) :
  (1 <= cap)%N -> within_capacity cap q ->
  exists q', push f q = Some q' /\ within_capacity cap q'.
Proof.
  intros Hcap [Hmax Hsize]. destruct (running_ q) eqn:Hrun.
  - rewrite push_open by (rewrite ?Hmax; assumption).
    eexists; split; [reflexivity | ].
    split; [exact Hmax | ]. unfold size, excess in *. cbn [queue_].
    rewrite length_app, length_skipn. cbn [length]. lia.
  - rewrite push_closed by assumption.
    exists q. repeat split; assumption.
Qed.

Lemma stop_within (cap : N) (q : FrameQueue) :
  within_capacity cap q -> within_capacity cap (stop q).
Proof. intros H. exact H. Qed.

Lemma do_actions_within (cap : N) (acts : list action) (q : FrameQueue) :
  (1 <= cap)%N -> within_capacity cap q ->
  exists q', do_actions acts q = Some q' /\ within_capacity cap q'.
Proof.
  intros Hcap. revert q.
  induction acts as [|a acts IH]; intros q Hq.
  - exists q. split; [reflexivity | exact Hq].
  - destruct a as [f|]; cbn [do_actions do_action].
    + destruct (push_within f Hcap Hq) as (q1 & -> & Hq1). now apply IH.
    + apply IH. now apply stop_within.
Qed.

Lemma wait_for_within (cap : N) (env : list wakeup) (t w : Z)
      (q : FrameQueue) :
  (1 <= cap)%N -> within_capacity cap q ->
  exists b q' w', wait_for env t w q = Some (b, q', w') /\
                  within_capacity cap q'.
Proof.
  intros Hcap. revert t w q.
  induction env as [|k env IH]; intros t w q Hq; cbn [wait_for].
  - destruct (ready q); eauto.
  - destruct (ready q); [eauto | ].
    destruct (Z.of_N (slept k) <? t)%Z; [ | eauto].
    destruct (do_actions_within (during k) Hcap Hq) as (q1 & -> & Hq1).
    now apply IH.
Qed.

Lemma take_front_within (cap : N) (q : FrameQueue) (w : Z) :
  within_capacity cap q -> within_capacity cap (after (take_front q w)).
Proof.
  intros [Hmax Hsize]. unfold take_front.
  destruct (negb (running_ q) && empty (queue_ q)); [now split | ].
  destruct (queue_ q) as [|f l] eqn:Hl; [now split | ].
  split; [exact Hmax | ]. unfold size in *. rewrite Hl in Hsize.
  cbn [after queue_ length] in *. lia.
Qed.

Lemma pop_within (cap : N) (t : Z) (env : list wakeup) (q : FrameQueue) :
  (1 <= cap)%N -> within_capacity cap q ->
  exists r, pop t env q = Some r /\ within_capacity cap (after r).
Proof.
  intros Hcap Hq. unfold pop.
  destruct (wait_for_within env t 0 Hcap Hq) as (b & q1 & w & -> & Hq1).
  destruct b; cbn [negb].
  - eexists; split; [reflexivity | ]. now apply take_front_within.
  - eexists; split; [reflexivity | exact Hq1].
Qed.

Lemma run_within (cap : N) (ops : list op) (q : FrameQueue) :
  (1 <= cap)%N -> within_capacity cap q ->
  exists delivered q',
    run ops q = Some (delivered, q') /\ within_capacity cap q'.
Proof.
  intros Hcap. revert q.
  induction ops as [|o ops IH]; intros q Hq.
  - exists [], q. split; [reflexivity | exact Hq].
  - destruct o as [f | t | ]; cbn [run].
    + destruct (push_within f Hcap Hq) as (q1 & -> & Hq1). now apply IH.
    + destruct (pop_within t [] Hcap Hq) as (r & -> & Hr).
      destruct (IH _ Hr) as (d & q' & -> & Hq'). eauto.
    + apply IH. now apply stop_within.
Qed.

(** C3.  For a capacity of at least 1, every script of pushes, pops and
    stops run on a fresh queue runs to its end and leaves no more frames in
    the queue than its capacity (every prefix of a script is a script, so
    this holds after each call); and each operation, [pop] with whatever
    the other thread does while it waits included, keeps the size within
    the capacity. *)
Theorem C3_size_never_exceeds_capacity (cap : N) :
  (1 <= cap)%N ->
  (forall ops : list op,
      exists delivered q,
        run ops (FrameQueue_new cap) = Some (delivered, q) /\
        (size q <= cap)%N) /\
  (forall q : FrameQueue,
      within_capacity cap q ->
      (forall f, exists q', push f q = Some q' /\ within_capacity cap q') /\
      (forall t env, exists r,
            pop t env q = Some r /\ within_capacity cap (after r)) /\
      within_capacity cap (stop q)).
Proof.
  intros Hcap. split.
  - intros ops.
    assert (H0 : within_capacity cap (FrameQueue_new cap))
      by (split; [reflexivity | unfold size; simpl; lia]).
    destruct (run_within ops Hcap H0) as (d & q & Hr & _ & Hq).
    exists d, q. split; assumption.
  - intros q Hq. repeat split.
    + intros f. now apply push_within.
    + intros t env.
      destruct (pop_within t env Hcap Hq) as (r & Hr & Hm & Hs).
      exists r. repeat split; assumption.
    + apply Hq.
    + apply Hq.
Qed.

Lemma pops_closed (calls : list (Z * list wakeup)) (q : FrameQueue) :
  running_ q = false ->
  exists rs,
    pops calls q = Some rs /\
    map (@frame_out) rs =
      map Some (firstn (length calls) (queue_ q)) ++
      repeat None (length calls - length (queue_ q)) /\
    map (@ok) rs =
      repeat true (Nat.min (length calls) (length (queue_ q))) ++
      repeat false (length calls - length (queue_ q)) /\
    Forall (fun r => waited_ms r = 0%Z) rs.
Proof.
  revert q.
  induction calls as [|[t env] calls IH]; intros q Hclosed.
  - exists []. repeat split; constructor.
  - cbn [pops]. rewrite pop_ready by (now apply ready_closed).
    destruct q as [[|f l] m r]; cbn [running_] in Hclosed; subst r.
    + rewrite take_front_nil by reflexivity. cbn [after].
      destruct (IH {| queue_ := []; max_size_ := m; running_ := false |}
                   eq_refl) as (rs & -> & Hf & Ho & Hw).
      eexists; split; [reflexivity | ].
      cbn [map frame_out ok queue_ length] in *.
      rewrite Hf, Ho, firstn_nil, Nat.min_0_r, Nat.sub_0_r.
      repeat split. constructor; [reflexivity | exact Hw].
    + rewrite take_front_cons. cbn [after].
      destruct (IH {| queue_ := l; max_size_ := m; running_ := false |}
                   eq_refl) as (rs & -> & Hf & Ho & Hw).
      eexists; split; [reflexivity | ].
      cbn [map frame_out ok queue_ length] in *.
      rewrite Hf, Ho. repeat split. constructor; [reflexivity | exact Hw].
Qed.

(** C4.  [stop] leaves the buffered frames where they are, and the calls of
    [pop] that follow it, whatever their timeouts and whatever the other
    thread does, first deliver the frames buffered at the time of the stop,
    front first and each with [true], then all return [false] and write no
    frame; none of these calls is suspended for any time. *)
Theorem C4_pop_drains_after_stop
        (calls : list (Z * list wakeup)) (q : FrameQueue) :
  queue_ (stop q) = queue_ q /\
  exists rs,
    pops calls (stop q) = Some rs /\
    map (@frame_out) rs =
      map Some (firstn (length calls) (queue_ q)) ++
      repeat None (length calls - length (queue_ q)) /\
    map (@ok) rs =
      repeat true (Nat.min (length calls) (length (queue_ q))) ++
      repeat false (length calls - length (queue_ q)) /\
    Forall (fun r => waited_ms r = 0%Z) rs.
Proof.
  split; [reflexivity | ].
  apply (pops_closed calls (stop q)). reflexivity.
Qed.

(** C5.  On a stopped queue [push] has defined behaviour and changes
    nothing: the queue afterwards is the queue before, with the same frames
    and the same size, and the frame pushed is not in it unless it was
    before. *)
Theorem C5_push_after_stop_is_noop (f : Frame) (q : FrameQueue) :
  running_ q = false ->
  push f q = Some q /\
  push f (stop q) = Some (stop q).
Proof.
  intros Hclosed. split; apply push_closed; [exact Hclosed | reflexivity].
Qed.

(** C8.  With a timeout of zero or less, [pop] does not wait, whatever the
    other thread is about to do: on a queue that holds a frame it removes
    and delivers the front frame and returns [true]; on an empty queue,
    open or stopped, it returns [false] and changes nothing. *)
Theorem C8_pop_nonpositive_timeout_polls
        (t : Z) (env : list wakeup) (q : FrameQueue) :
  (t <= 0)%Z ->
  pop t env q =
  Some match queue_ q with
       | front :: rest =>
           {| ok := true; frame_out := Some front;
              after := {| queue_ := rest; max_size_ := max_size_ q;
                          running_ := running_ q |};
              waited_ms := 0 |}
       | [] =>
           {| ok := false; frame_out := None; after := q; waited_ms := 0 |}
       end.
Proof.
  intros Ht. destruct q as [[|f l] m r].
  - destruct r.
    + unfold pop. now rewrite wait_for_poll.
    + rewrite pop_ready by reflexivity. now rewrite take_front_nil.
  - rewrite pop_ready by reflexivity. now rewrite take_front_cons.
Qed.

Lemma take_front_frame (q : FrameQueue) (w : Z) :
  let r := take_front q w in
  (ok r = false -> after r = q /\ frame_out r = None) /\
  (ok r = true ->
   exists front,
     frame_out r = Some front /\
     queue_ q = front :: queue_ (after r) /\
     running_ (after r) = running_ q /\
     max_size_ (after r) = max_size_ q).
Proof.
  destruct q as [[|f l] m r].
  - rewrite take_front_nil by reflexivity. cbn. split; [auto | discriminate].
  - rewrite take_front_cons. cbn. split; [discriminate | eauto].
Qed.

(** C9.  [pop] changes nothing but the front of the queue.  Called while
    no other thread acts, it returns; when it returns [false] the queue
    afterwards is the queue before (frames, flag and capacity) and no
    frame is written; when it returns [true] the frame written is the
    front frame, the queue afterwards holds the frames behind it, and flag
    and capacity are as before.  When the other thread acts during the
    wait, the same holds with respect to the queue as the other thread
    left it: [pop] itself only takes the front frame. *)
Theorem C9_pop_only_removes_front :
  (forall (t : Z) (q : FrameQueue),
      exists r,
        pop t [] q = Some r /\
        (ok r = false -> after r = q /\ frame_out r = None) /\
        (ok r = true ->
         exists front,
           frame_out r = Some front /\
           queue_ q = front :: queue_ (after r) /\
           running_ (after r) = running_ q /\
           max_size_ (after r) = max_size_ q)) /\
  (forall (t : Z) (env : list wakeup) (q : FrameQueue) (r : pop_result),
      pop t env q = Some r ->
      exists satisfied q1 w,
        wait_for env t 0 q = Some (satisfied, q1, w) /\
        (ok r = false -> after r = q1 /\ frame_out r = None) /\
        (ok r = true ->
         exists front,
           frame_out r = Some front /\
           queue_ q1 = front :: queue_ (after r) /\
           running_ (after r) = running_ q1 /\
           max_size_ (after r) = max_size_ q1)).
Proof.
  split.
  - intros t q. destruct (ready q) eqn:Hr.
    + rewrite pop_ready by exact Hr. eexists; split; [reflexivity | ].
      apply take_front_frame.
    + rewrite pop_alone_idle by exact Hr. eexists; split; [reflexivity | ].
      cbn. split; [auto | discriminate].
  - intros t env q r. unfold pop.
    destruct (wait_for env t 0 q) as [[[b q1] w]|]; [ | discriminate].
    intros Hr. exists b, q1, w. split; [reflexivity | ].
    destruct b; cbn [negb] in Hr; injection Hr as <-.
    + apply take_front_frame.
    + cbn. split; [auto | discriminate].
Qed.

(** C10.  With a capacity of at least 1 the loop of [push] ends, on every
    queue: it removes [size - capacity + 1] frames from the front when the
    queue is open and holds [capacity] frames or more, none otherwise, and
    [push] has defined behaviour.  With capacity 0, which [main] accepts
    from the command line, the condition of the loop holds on an open
    queue whatever it holds, so the loop empties the queue and then
    removes from the empty queue: [push] has undefined behaviour. *)
Theorem C10_drop_loop_terminates :
  (forall (m : N) (r : bool) (l : list Frame),
      (1 <= m)%N ->
      exists removed kept,
        drop_oldest m r l = Some kept /\
        l = removed ++ kept /\
        length removed =
          (if r && (m <=? N.of_nat (length l))%N
           then length l - N.to_nat m + 1 else 0) /\
        length removed <= length l - N.to_nat m + 1) /\
  (forall (f : Frame) (q : FrameQueue),
      (1 <= max_size_ q)%N -> exists q', push f q = Some q') /\
  (forall l : list Frame, drop_oldest 0 true l = None) /\
  (forall (f : Frame) (l : list Frame),
      push f {| queue_ := l; max_size_ := 0; running_ := true |} = None) /\
  main_queue_size (Some 0%Z) = 0%N.
Proof.
  split; [ | split; [ | split; [ | split]]].
  - intros m r l Hm. destruct r.
    + destruct (m <=? N.of_nat (length l))%N eqn:Hc; cbn [andb].
      * apply N.leb_le in Hc.
        destruct (excess_split l Hm Hc) as (Hsplit & Hlen & _).
        exists (firstn (excess m l) l), (skipn (excess m l) l).
        rewrite drop_oldest_open by exact Hm. repeat split; auto. lia.
      * apply N.leb_gt in Hc. exists [], l.
        rewrite drop_oldest_room by exact Hc. repeat split. simpl. lia.
    + exists [], l. rewrite drop_oldest_closed. repeat split. simpl. lia.
  - intros f q Hm. unfold push. destruct (running_ q).
    + rewrite drop_oldest_open by exact Hm. eauto.
    + rewrite drop_oldest_closed. eauto.
  - apply drop_oldest_zero.
  - intros f l. unfold push. cbn [max_size_ running_ queue_].
    now rewrite drop_oldest_zero.
  - reflexivity.
Qed.

(** ** The pipeline *)

Lemma pipeline_inv_start (queue_size : N) :
  pipeline_inv [] (pipeline_start queue_size).
Proof.
  unfold pipeline_inv. cbn. split; [intros b [] | ].
  repeat split; auto. discriminate.
Qed.

Lemma pipeline_inv_step (h : list event) (s s' : pipeline) (e : event) :
  pipeline_inv h s -> step s e s' -> pipeline_inv (e :: h) s'.
Proof.
  intros (Hopen & Hrun & Hrest) Hstep.
  step_cases Hstep.
  all: destruct s as [run fq opened0 cpc dpc fr].
  all: unfold pipeline_inv, after_pop in *.
  all: cbn [running frameQueue cap_isOpened capture display frame
            set_running set_frameQueue set_cap_isOpened set_capture
            set_display set_frame stores existsb is_read_or_push orb] in *.
  all: subst.
  all: destruct opened0; cbn in Hrest.
  all: repeat match goal with
       | H : _ /\ _ |- _ => destruct H
       | H : _ \/ _ |- _ => destruct H
       end; try discriminate.
  all: try match goal with
       | H : queue_ ?q = [] |- context [take_front ?q ?w] =>
           rewrite (take_front_nil q w H)
       end.
  all: (split;
        [ intros b [Hb | Hb];
          [ try discriminate; try (injection Hb as <-);
            try (destruct (frame_empty _); discriminate)
          | destruct (Hopen b Hb) as [Hb1 Hpc];
            first [ congruence
                  | split;
                    [exact Hb1 | first [exact Hpc | split_ifs; discriminate]] ] ]
        | ]).
  all: try solve [ split; [reflexivity | split_ifs; discriminate] ].
  all: cbn.
  all: try solve [ repeat split; auto; try lia; try discriminate;
                   split_ifs; cbn; auto; try discriminate; try lia ].
  destruct opened; cbn; repeat split; auto. discriminate.
Qed.

Lemma pipeline_inv_reaches (queue_size : N) (h : list event) (s : pipeline) :
  reaches (pipeline_start queue_size) h s -> pipeline_inv h s.
Proof.
  induction 1 as [|h s e s' _ IH Hstep].
  - apply pipeline_inv_start.
  - exact (pipeline_inv_step IH Hstep).
Qed.

Lemma pop_woken_by_stop (t : Z) (nap : N) (q : FrameQueue) :
  ready q = false -> (Z.of_N nap < t)%Z ->
  pop t [{| slept := nap; during := [ActStop] |}] q =
  Some {| ok := false; frame_out := None; after := stop q;
          waited_ms := Z.of_N nap |}.
Proof.
  intros Hidle Hnap. unfold pop. cbn [wait_for slept during].
  rewrite Hidle.
  apply Z.ltb_lt in Hnap. rewrite Hnap. cbn [do_actions do_action].
  rewrite (ready_closed (stop q)) by reflexivity.
  cbn [negb]. unfold take_front. cbn [running_ stop queue_ negb andb].
  unfold ready in Hidle. apply orb_false_iff in Hidle as [Hempty _].
  apply negb_false_iff in Hempty. now rewrite Hempty.
Qed.

Lemma capture_failure_path (s s' : pipeline) (e : event) :
  captureThread s e s' ->
  (capture s = CapFailFlag ->
   e = EvStoreRunning /\
   s' = set_capture CapFailStop (set_running false s)) /\
  (capture s = CapFailStop ->
   e = EvQueueStop /\
   s' = set_capture CapReturned (set_frameQueue (stop (frameQueue s)) s)) /\
  (capture s = CapReturned -> False).
Proof.
  destruct 1; repeat split; congruence.
Qed.


Lemma take_front_running_ (q : FrameQueue) (w : Z) :
  running_ (after (take_front q w)) = running_ q.
Proof.
  destruct q as [[|f l] m r].
  - now rewrite take_front_nil.
  - now rewrite take_front_cons.
Qed.

Lemma step_running_stays_false (s s' : pipeline) (e : event) :
  step s e s' -> running s = false -> running s' = false.
Proof.
  intros Hstep. step_cases Hstep; pipeline_fields; auto.
Qed.

Lemma step_queue_stays_stopped (s s' : pipeline) (e : event) :
  step s e s' ->
  running_ (frameQueue s) = false -> running_ (frameQueue s') = false.
Proof.
  intros Hstep. step_cases Hstep; subst; pipeline_fields; auto;
    intros Hclosed.
  - match goal with
    | Hpush : push _ _ = Some _ |- _ =>
        rewrite push_closed in Hpush by exact Hclosed;
        now injection Hpush as <-
    end.
  - now rewrite take_front_running_.
  - now rewrite take_front_running_.
Qed.

Lemma step_store (s s' : pipeline) (e : event) :
  step s e s' ->
  (e = EvStoreRunning ->
   (capture s = CapFailFlag \/ display s = MainKeyExit) /\
   running s' = false) /\
  (e <> EvStoreRunning -> running s' = running s).
Proof.
  intros Hstep.
  step_cases Hstep; pipeline_fields; split;
    try discriminate; try congruence; auto.
  destruct (frame_empty (frame s)); discriminate.
Qed.

(** C7.  The flag [running] of [main] is [true] when the pipeline starts.
    No step of the capture thread, of [main] or of the queue they share
    takes it from [false] to [true], so it stays [false] along every run
    once it is [false].  Only a store of [false] changes it, and there are
    two: the one of the capture thread whose source did not open, and the
    one of [main] on an exit key.  In a run of the pipeline at most one
    such store takes place, and [running] is [true] exactly as long as
    none has.  The flag [running_] of the queue, [true] in a fresh queue,
    is never taken back to [true] either, by a step of the pipeline or by
    [push], [pop] or [stop] called on a stopped queue. *)
Theorem C7_running_flag_monotonic :
  (forall queue_size : N,
      running (pipeline_start queue_size) = true /\
      running_ (frameQueue (pipeline_start queue_size)) = true) /\
  (forall (s s' : pipeline) (e : event),
      step s e s' -> running s = false -> running s' = false) /\
  (forall (s0 s : pipeline) (h : list event),
      reaches s0 h s -> running s0 = false -> running s = false) /\
  (forall (s s' : pipeline) (e : event),
      step s e s' ->
      (e = EvStoreRunning ->
       (capture s = CapFailFlag \/ display s = MainKeyExit) /\
       running s' = false) /\
      (e <> EvStoreRunning -> running s' = running s)) /\
  (forall (queue_size : N) (h : list event) (s : pipeline),
      reaches (pipeline_start queue_size) h s ->
      stores h <= 1 /\ running s = (stores h =? 0)) /\
  (forall (s s' : pipeline) (e : event),
      step s e s' ->
      running_ (frameQueue s) = false -> running_ (frameQueue s') = false) /\
  (forall q : FrameQueue,
      running_ q = false ->
      (forall f q', push f q = Some q' -> running_ q' = false) /\
      (forall t env r, pop t env q = Some r -> running_ (after r) = false) /\
      running_ (stop q) = false).
Proof.
  split; [intros n; split; reflexivity | ].
  split; [intros s s' e; apply step_running_stays_false | ].
  split.
  { intros s0 s h Hreach. induction Hreach as [|h s e s' _ IH Hstep].
    - auto.
    - intros H0. exact (step_running_stays_false Hstep (IH H0)). }
  split; [intros s s' e; apply step_store | ].
  split;
    [ | split; [intros s s' e; apply step_queue_stays_stopped | ] ].
  2: { intros q Hclosed. split; [ | split; [ | reflexivity] ].
       - intros f q' Hpush. rewrite push_closed in Hpush by exact Hclosed.
         now injection Hpush as <-.
       - intros t env r Hpop.
         rewrite pop_ready in Hpop by (now apply ready_closed).
         injection Hpop as <-. now rewrite take_front_running_. }
  intros n h s Hreach.
  apply pipeline_inv_reaches in Hreach as (_ & Hrun & Hrest).
  split; [ | exact Hrun].
  destruct (cap_isOpened s).
  - destruct Hrest as (_ & [-> | [-> _]]); lia.
  - destruct Hrest as (_ & _ & _ & _ & -> & _).
    destruct (capture_stored (capture s)); lia.
Qed.

(** ** More on the queue *)

Lemma subseq_refl (A : Type) (l : list A) : subseq l l.
Proof.
  induction l; [apply subseq_nil | now apply subseq_keep].
Qed.

Lemma subseq_nil_l (A : Type) (l : list A) : subseq [] l.
Proof.
  induction l; constructor; assumption.
Qed.

Lemma subseq_trans (A : Type) (l1 l2 l3 : list A) :
  subseq l1 l2 -> subseq l2 l3 -> subseq l1 l3.
Proof.
  intros H12 H23. revert l1 H12.
  induction H23 as [|x l2 l3 H23 IH|x l2 l3 H23 IH]; intros l1 H12.
  - exact H12.
  - constructor. now apply IH.
  - inversion H12; subst.
    + apply subseq_skip. now apply IH.
    + apply subseq_keep. now apply IH.
Qed.

Lemma subseq_app (A : Type) (l1 l2 k1 k2 : list A) :
  subseq l1 l2 -> subseq k1 k2 -> subseq (l1 ++ k1) (l2 ++ k2).
Proof.
  induction 1 as [|x l1 l2 H IH|x l1 l2 H IH]; intros Hk; cbn.
  - exact Hk.
  - apply subseq_skip. now apply IH.
  - apply subseq_keep. now apply IH.
Qed.

Lemma subseq_skipn (A : Type) (n : nat) (l : list A) : subseq (skipn n l) l.
Proof.
  revert n. induction l as [|a l IH]; intros [|n]; cbn.
  - apply subseq_nil.
  - apply subseq_nil.
  - apply subseq_refl.
  - apply subseq_skip. apply IH.
Qed.

Lemma subseq_firstn (A : Type) (n : nat) (l : list A) :
  subseq (firstn n l) l.
Proof.
  revert n. induction l as [|a l IH]; intros [|n]; cbn.
  - apply subseq_nil.
  - apply subseq_nil.
  - apply subseq_nil_l.
  - apply subseq_keep. apply IH.
Qed.

Lemma subseq_length (A : Type) (l1 l2 : list A) :
  subseq l1 l2 -> length l1 <= length l2.
Proof.
  induction 1; cbn; lia.
Qed.

Lemma drop_oldest_suffix (m : N) (r : bool) (l kept : list Frame) :
  drop_oldest m r l = Some kept -> exists n, kept = skipn n l.
Proof.
  revert kept. induction l as [|a l IH]; intros kept; cbn [drop_oldest].
  - destruct ((m <=? N.of_nat (length (@nil Frame)))%N && r);
      [discriminate | ].
    intros H. injection H as <-. now exists 0.
  - destruct ((m <=? N.of_nat (length (a :: l)))%N && r).
    + intros H. destruct (IH _ H) as [n ->]. now exists (S n).
    + intros H. injection H as <-. now exists 0.
Qed.

(** What a [push] with defined behaviour does to the queue. *)
Lemma push_result (f : Frame) (q q' : FrameQueue) :
  push f q = Some q' ->
  max_size_ q' = max_size_ q /\ running_ q' = running_ q /\
  ((running_ q = true /\ exists n, queue_ q' = skipn n (queue_ q) ++ [f]) \/
   (running_ q = false /\ queue_ q' = queue_ q)).
Proof.
  unfold push.
  destruct (drop_oldest (max_size_ q) (running_ q) (queue_ q))
    as [kept|] eqn:Hdrop; [ | discriminate].
  destruct (running_ q) eqn:Hrun; intros H; injection H as <-; cbn.
  - repeat split. left. split; [reflexivity | ].
    destruct (drop_oldest_suffix _ _ _ Hdrop) as [n ->]. now exists n.
  - repeat split. right. split; [reflexivity | ].
    rewrite drop_oldest_closed in Hdrop. now injection Hdrop as <-.
Qed.

Lemma pop_alone (t : Z) (q : FrameQueue) :
  exists r,
    pop t [] q = Some r /\
    max_size_ (after r) = max_size_ q /\
    running_ (after r) = running_ q /\
    queue_ q = delivered_by r ++ queue_ (after r).
Proof.
  destruct (ready q) eqn:Hready.
  - rewrite pop_ready by exact Hready. eexists; split; [reflexivity | ].
    destruct q as [[|f l] m r].
    + rewrite take_front_nil by reflexivity. now cbn.
    + rewrite take_front_cons. now cbn.
  - rewrite pop_alone_idle by exact Hready. eexists; split; [reflexivity | ].
    now cbn.
Qed.

Lemma newest_after_push (c : nat) (f : Frame) (l frames : list Frame) :
  1 <= c -> length l <= c ->
  skipn (length ((skipn (S (length l) - c) l ++ [f]) ++ frames) - c)
        ((skipn (S (length l) - c) l ++ [f]) ++ frames)
  = skipn (length (l ++ f :: frames) - c) (l ++ f :: frames).
Proof.
  intros Hc Hl.
  destruct (Nat.eq_dec (length l) c) as [Hfull | Hroom].
  - destruct l as [|x l]; cbn [length] in *; [lia | ].
    replace (S (S (length l)) - c) with 1 by lia.
    cbn [skipn app]. rewrite <- app_assoc. cbn [app length].
    replace (S (length (l ++ f :: frames)) - c)
      with (S (length (l ++ f :: frames) - c))
      by (rewrite length_app; cbn [length]; lia).
    reflexivity.
  - replace (S (length l) - c) with 0 by lia.
    cbn [skipn]. rewrite <- app_assoc. reflexivity.
Qed.

(** X1.  Pushing a list of frames, with no pop in between, into an open
    queue of capacity at least 1 that holds no more than its capacity
    leaves in the queue the newest frames: of the frames buffered before
    followed by the frames pushed, the last [max_size_] (all of them when
    they are fewer), in their order. *)
Theorem X1_queue_keeps_newest_frames
        (cap : N) (frames : list Frame) (q : FrameQueue) :
  (1 <= cap)%N ->
  running_ q = true ->
  within_capacity cap q ->
  run (push_all frames) q =
  Some ([], {| queue_ := skipn (length (queue_ q ++ frames) - N.to_nat cap)
                               (queue_ q ++ frames);
               max_size_ := cap; running_ := true |}).
Proof.
  intros Hcap. revert q.
  induction frames as [|f frames IH]; intros q Hrun [Hmax Hsize].
  - cbn [push_all map run]. rewrite app_nil_r.
    unfold size in Hsize.
    replace (length (queue_ q) - N.to_nat cap) with 0 by lia.
    destruct q; cbn in *; subst; reflexivity.
  - cbn [push_all map run].
    rewrite push_open by (rewrite ?Hmax; assumption).
    fold (push_all frames). unfold size, excess in *.
    rewrite IH; [ | reflexivity | ].
    + cbn [queue_]. rewrite Hmax.
      rewrite newest_after_push by lia. reflexivity.
    + split; [exact Hmax | ]. unfold size. cbn [queue_].
      rewrite length_app, length_skipn. cbn [length]. lia.
Qed.

(** X2.  Whatever the script of pushes, pops and stops run on a queue of
    capacity at least 1, overflow included, it runs to its end, and the
    frames delivered followed by the frames still buffered are some of the
    frames buffered at first followed by the frames pushed, in the same
    order: frames are lost, never reordered, repeated or made up. *)
Theorem X2_frames_keep_their_order (ops : list op) (q : FrameQueue) :
  (1 <= max_size_ q)%N ->
  exists delivered q',
    run ops q = Some (delivered, q') /\
    subseq (delivered ++ queue_ q') (queue_ q ++ pushed ops).
Proof.
  revert q. induction ops as [|o ops IH]; intros q Hcap.
  - exists [], q. split; [reflexivity | ]. cbn. rewrite app_nil_r.
    apply subseq_refl.
  - destruct o as [f | t | ]; cbn [run pushed].
    + assert (Hdef : exists q1, push f q = Some q1).
      { destruct (running_ q) eqn:Hrun.
        - rewrite push_open by assumption. eauto.
        - rewrite push_closed by assumption. eauto. }
      destruct Hdef as [q1 Hpush]. rewrite Hpush.
      destruct (push_result _ _ Hpush) as (Hmax & _ & Hq1).
      destruct (IH q1) as (d & q' & Hr & Hsub); [now rewrite Hmax | ].
      exists d, q'. split; [exact Hr | ].
      apply (subseq_trans Hsub).
      destruct Hq1 as [[_ [n ->]] | [_ ->]].
      * rewrite <- app_assoc. apply subseq_app.
        -- apply subseq_skipn.
        -- apply subseq_refl.
      * apply subseq_app; [apply subseq_refl | ].
        apply subseq_skip. apply subseq_refl.
    + destruct (pop_alone t q) as (r & -> & Hmax & _ & Hq).
      destruct (IH (after r)) as (d & q' & -> & Hsub);
        [now rewrite Hmax | ].
      exists (delivered_by r ++ d), q'. split; [reflexivity | ].
      rewrite Hq, <- !app_assoc.
      apply subseq_app; [apply subseq_refl | exact Hsub].
    + destruct (IH (stop q) Hcap) as (d & q' & -> & Hsub). eauto.
Qed.

(** X3.  On a stopped queue every script of pushes, pops and stops runs to
    its end, leaves the queue stopped, and the frames it delivers followed
    by the frames still buffered are exactly the frames buffered at first:
    after [stop] no frame enters the queue and none is lost. *)
Theorem X3_stopped_queue_only_drains (ops : list op) (q : FrameQueue) :
  running_ q = false ->
  exists delivered q',
    run ops q = Some (delivered, q') /\
    delivered ++ queue_ q' = queue_ q /\
    running_ q' = false /\
    (size q' <= size q)%N.
Proof.
  revert q. induction ops as [|o ops IH]; intros q Hclosed.
  - exists [], q. repeat split; auto. lia.
  - destruct o as [f | t | ]; cbn [run].
    + rewrite push_closed by exact Hclosed. now apply IH.
    + destruct (pop_alone t q) as (r & -> & _ & Hrun & Hq).
      destruct (IH (after r)) as (d & q' & -> & Hd & Hq' & Hsize);
        [now rewrite Hrun | ].
      exists (delivered_by r ++ d), q'.
      split; [reflexivity | ]. split; [ | split; [exact Hq' | ] ].
      * now rewrite <- app_assoc, Hd.
      * unfold size in *. rewrite Hq, length_app. lia.
    + now apply (IH (stop q)).
Qed.

Lemma wait_for_time (env : list wakeup) (rem w : Z) (q q' : FrameQueue)
      (b : bool) (w' : Z) :
  wait_for env rem w q = Some (b, q', w') ->
  b = ready q' /\
  (w <= w' <= w + Z.max 0 rem)%Z /\
  (b = false -> w' = (w + Z.max 0 rem)%Z).
Proof.
  revert rem w q.
  induction env as [|k env IH]; intros rem w q; cbn [wait_for];
    destruct (ready q) eqn:Hready.
  - intros H. injection H as <- <- <-. repeat split; auto; lia.
  - intros H. injection H as <- <- <-. repeat split; auto; lia.
  - intros H. injection H as <- <- <-. repeat split; auto; lia.
  - destruct (Z.of_N (slept k) <? rem)%Z eqn:Hnap.
    + apply Z.ltb_lt in Hnap.
      destruct (do_actions (during k) q) as [q1|]; [ | discriminate].
      intros H. apply IH in H as (Hb & Hbound & Hout).
      split; [exact Hb | ]. split; [lia | ].
      intros Hfalse. rewrite (Hout Hfalse). lia.
    + intros H. injection H as <- <- <-. repeat split; auto; lia.
Qed.


(** X5.  [pop] returns [false] only on an empty queue: it never fails
    while a frame is buffered.  And when it returns [false] with the queue
    still open, it has waited out its whole timeout: a [false] that comes
    earlier means the queue was stopped. *)
Theorem X5_pop_fails_only_when_empty
        (t : Z) (env : list wakeup) (q : FrameQueue) (r : pop_result) :
  pop t env q = Some r ->
  ok r = false ->
  queue_ (after r) = [] /\
  frame_out r = None /\
  (running_ (after r) = true -> waited_ms r = Z.max 0 t).
Proof.
  unfold pop.
  destruct (wait_for env t 0 q) as [[[b q1] w]|] eqn:Hwait; [ | discriminate].
  apply wait_for_time in Hwait as (Hb & _ & Hout).
  destruct b; cbn [negb]; intros H; injection H as <-.
  - destruct q1 as [[|f l] m run].
    + rewrite take_front_nil by reflexivity. cbn. intros _.
      repeat split. intros ->. discriminate.
    + rewrite take_front_cons. discriminate.
  - cbn. intros _. symmetry in Hb. unfold ready in Hb.
    apply orb_false_iff in Hb as [Hempty _].
    apply negb_false_iff in Hempty.
    split; [now destruct (queue_ q1) | ].
    split; [reflexivity | ]. intros _. now rewrite Hout.
Qed.

(** X6.  A consumer suspended in [pop] on an empty open queue of capacity
    at least 1 is woken by the next [push]: when a frame is pushed before
    the timeout has run out, [pop] returns [true] with that frame, after
    the time it took the frame to come, and leaves the queue empty. *)
Theorem X6_push_wakes_pop
        (t : Z) (nap : N) (f : Frame) (env : list wakeup) (q : FrameQueue) :
  ready q = false ->
  (1 <= max_size_ q)%N ->
  (Z.of_N nap < t)%Z ->
  pop t ({| slept := nap; during := [ActPush f] |} :: env) q =
  Some {| ok := true; frame_out := Some f; after := q;
          waited_ms := Z.of_N nap |}.
Proof.
  intros Hidle Hcap Hnap. unfold pop. cbn [wait_for slept during].
  rewrite Hidle. apply Z.ltb_lt in Hnap. rewrite Hnap.
  unfold ready in Hidle. apply orb_false_iff in Hidle as [Hempty Hrun].
  apply negb_false_iff in Hempty, Hrun.
  destruct q as [[|x l] m run]; cbn in Hempty, Hrun, Hcap;
    [ | discriminate]. subst run.
  cbn [do_actions do_action].
  rewrite push_open by assumption. cbn [queue_ max_size_].
  unfold excess. cbn [length].
  replace (1 - N.to_nat m) with 0 by lia. cbn [skipn app].
  rewrite wait_for_ready by reflexivity. cbn [negb].
  now rewrite take_front_cons.
Qed.

(** X7.  The queue size [main] takes from the command line ([atoi] of
    the fifth argument, an [int], converted to [size_t]): a positive value
    is the capacity; a negative value becomes a capacity of [2^63] or more;
    the value 0 is capacity 0, and that is the one value for which the
    first [push] has undefined behaviour. *)
Theorem X7_queue_size_from_command_line (z : Z) :
  (- 2 ^ 31 <= z < 2 ^ 31)%Z ->
  (main_queue_size (Some z) = 0%N <-> z = 0%Z) /\
  (0 <= z -> main_queue_size (Some z) = Z.to_N z)%Z /\
  (z < 0 -> 2 ^ 63 <= Z.of_N (main_queue_size (Some z)))%Z /\
  (forall f : Frame,
      push f (FrameQueue_new (main_queue_size (Some z))) = None <-> z = 0%Z).
Proof.
  intros Hint. cbn [main_queue_size]. unfold size_t_of_int.
  assert (Hpos : (0 <= z -> z mod 2 ^ 64 = z)%Z)
    by (intros; apply Z.mod_small; lia).
  assert (Hneg : (z < 0 -> z mod 2 ^ 64 = z + 2 ^ 64)%Z).
  { intros. rewrite <- (Z.mod_add z 1 (2 ^ 64)) by lia.
    rewrite Z.mul_1_l. apply Z.mod_small. lia. }
  assert (Hzero : Z.to_N (z mod 2 ^ 64) = 0%N <-> z = 0%Z).
  { destruct (Z.neg_nonneg_cases z) as [Hz | Hz].
    - rewrite (Hneg Hz). lia.
    - rewrite (Hpos Hz). lia. }
  split; [exact Hzero | ].
  split; [intros Hz; now rewrite (Hpos Hz) | ].
  split; [intros Hz; rewrite (Hneg Hz); lia | ].
  intros f. rewrite <- Hzero.
  destruct (Z.to_N (z mod 2 ^ 64)) as [|p] eqn:Hcap.
  - split; [reflexivity | intros _; reflexivity].
  - split; [ | discriminate].
    rewrite push_open by (cbn; lia). discriminate.
Qed.

(** ** More on the pipeline *)

Lemma shutdown_inv_step (s s' : pipeline) (e : event) :
  shutdown_inv s -> step s e s' -> shutdown_inv s'.
Proof.
  intros (Hfail & Hqueue & Hleft & Hjoin & Hret) Hstep.
  step_cases Hstep; subst.
  all: destruct s as [run fq opened0 cpc dpc fr].
  all: unfold shutdown_inv in *; pipeline_fields; subst.
  all: rewrite ?take_front_running_.
  all: try match goal with
           | Hpush : push _ _ = Some _ |- _ =>
               apply push_result in Hpush as (_ & -> & _)
           end.
  all: unfold is_running in *; cbn [stop running_] in *.
  all: split_ifs; cbn [main_left_loop negb] in *.
  all: try solve [intuition (subst; cbn in *; congruence)].
  destruct run; [discriminate | ].
  intuition (subst; cbn in *; congruence).
Qed.

Lemma shutdown_inv_reaches (queue_size : N) (h : list event) (s : pipeline) :
  reaches (pipeline_start queue_size) h s -> shutdown_inv s.
Proof.
  induction 1 as [|h s e s' _ IH Hstep].
  - unfold shutdown_inv. cbn.
    intuition (subst; cbn in *; congruence).
  - exact (shutdown_inv_step IH Hstep).
Qed.

(** X9.  In every run of the pipeline, [running] is [false] by the time
    [main] leaves its loop, so before it stops the queue and waits for the
    capture thread; the queue is stopped before [main] joins; and when
    [main] has returned the capture thread has returned too, and no step
    of either follows. *)
Theorem X9_shutdown_order
        (queue_size : N) (h : list event) (s : pipeline) :
  reaches (pipeline_start queue_size) h s ->
  (main_left_loop (display s) = true -> running s = false) /\
  (display s = MainJoin \/ display s = MainReturned ->
   running_ (frameQueue s) = false) /\
  (display s = MainReturned ->
   capture s = CapReturned /\ forall e s', ~ step s e s').
Proof.
  intros Hreach.
  apply shutdown_inv_reaches in Hreach as (_ & _ & Hleft & Hjoin & Hret).
  split; [exact Hleft | ]. split; [exact Hjoin | ].
  intros Hmain. split; [exact (Hret Hmain) | ].
  intros e s' Hstep. specialize (Hret Hmain).
  step_cases Hstep; congruence.
Qed.

Lemma pipeline_within_capacity
      (queue_size : N) (h : list event) (s : pipeline) :
  (1 <= queue_size)%N ->
  reaches (pipeline_start queue_size) h s ->
  within_capacity queue_size (frameQueue s).
Proof.
  intros Hcap. induction 1 as [|h s e s' _ IH Hstep].
  - split; [reflexivity | ]. unfold size. cbn. lia.
  - step_cases Hstep; subst; pipeline_fields; auto;
      try (now apply take_front_within).
    match goal with
    | Hpush : push ?f ?q = Some _ |- _ =>
        destruct (push_within f Hcap IH) as (q1 & Hq1 & Hwithin);
        rewrite Hq1 in Hpush; now injection Hpush as <-
    end.
Qed.

(** X12.  In every run of the pipeline started with a queue size of at
    least 1, the queue never holds more frames than the queue size, however
    fast the capture thread pushes and however slowly [main] pops. *)
Theorem X12_pipeline_queue_bounded
        (queue_size : N) (h : list event) (s : pipeline) :
  (1 <= queue_size)%N ->
  reaches (pipeline_start queue_size) h s ->
  max_size_ (frameQueue s) = queue_size /\
  (size (frameQueue s) <= queue_size)%N.
Proof.
  intros Hcap Hreach. exact (pipeline_within_capacity Hcap Hreach).
Qed.

Lemma push_defined (f : Frame) (q : FrameQueue) :
  (1 <= max_size_ q)%N -> exists q', push f q = Some q'.
Proof.
  intros Hcap. destruct (running_ q) eqn:Hrun.
  - rewrite push_open by assumption. eauto.
  - rewrite push_closed by assumption. eauto.
Qed.

Lemma capture_can_step (f0 : Frame) (s : pipeline) :
  (1 <= max_size_ (frameQueue s))%N ->
  capture s <> CapReturned ->
  exists e s', captureThread s e s'.
Proof.
  intros Hcap Hpc. destruct (capture s) as [ | | | | | f | | ] eqn:Hc.
  - do 2 eexists. exact (capture_open s true Hc).
  - do 2 eexists. exact (capture_fail_flag s Hc).
  - do 2 eexists. exact (capture_fail_stop s Hc).
  - do 2 eexists. exact (capture_loop s Hc).
  - do 2 eexists. exact (capture_read s false f0 Hc).
  - destruct (push_defined f (frameQueue s) Hcap) as [q' Hpush].
    do 2 eexists. exact (capture_push s Hc Hpush).
  - do 2 eexists. exact (capture_release s Hc).
  - contradiction.
Qed.

Lemma main_can_step (s : pipeline) :
  display s <> MainJoin -> display s <> MainReturned ->
  exists e s', main s e s'.
Proof.
  intros Hjoin Hret. destruct (display s) eqn:Hd; try contradiction.
  - do 2 eexists. exact (main_loop s Hd).
  - do 2 eexists. exact (main_loop_queue s Hd).
  - destruct (ready (frameQueue s)) eqn:Hready.
    + do 2 eexists. exact (main_pop_ready s Hd Hready eq_refl).
    + do 2 eexists. exact (main_pop_wait s Hd Hready).
  - destruct (ready (frameQueue s)) eqn:Hready.
    + do 2 eexists. exact (main_woken s Hd Hready eq_refl).
    + do 2 eexists. exact (main_timeout s Hd Hready).
  - do 2 eexists. exact (main_pop_failed s Hd).
  - do 2 eexists. exact (main_show s Hd).
  - do 2 eexists. exact (main_key s 0 Hd).
  - do 2 eexists. exact (main_key_exit s Hd).
  - do 2 eexists. exact (main_stop s Hd).
Qed.

(** X13.  The pipeline does not deadlock.  In every run started with a
    queue size of at least 1: the capture thread can take a step whenever
    it has not returned (it never waits for the queue, full or not);
    [main] can take a step unless it waits for the capture thread to
    return, and a [pop] that finds nothing is always left by its timeout;
    so as long as [main] has not returned, one of the two can take a step.
    (A frame exists: [cv::Mat()]; a read returns when it is called.) *)
Theorem X13_pipeline_never_deadlocks
        (f0 : Frame) (queue_size : N) (h : list event) (s : pipeline) :
  (1 <= queue_size)%N ->
  reaches (pipeline_start queue_size) h s ->
  (capture s <> CapReturned -> exists e s', captureThread s e s') /\
  (display s <> MainJoin -> display s <> MainReturned ->
   exists e s', main s e s') /\
  (display s <> MainReturned -> exists e s', step s e s').
Proof.
  intros Hcap Hreach.
  destruct (pipeline_within_capacity Hcap Hreach) as [Hmax _].
  assert (Hc : capture s <> CapReturned -> exists e s', captureThread s e s')
    by (apply (capture_can_step f0); now rewrite Hmax).
  split; [exact Hc | ]. split; [apply main_can_step | ].
  intros Hret.
  destruct (display s) eqn:Hd;
    try (destruct (@main_can_step s) as (e & s' & Hm);
         [congruence | congruence | exists e, s'; now apply step_main]).
  destruct (capture s) eqn:Hcs;
    try (destruct Hc as (e & s' & Hm);
         [discriminate | exists e, s'; now apply step_capture]).
  do 2 eexists. apply step_main. exact (main_join s Hd Hcs).
Qed.

Lemma capture_step_winds_down (s s' : pipeline) (e : event) :
  captureThread s e s' ->
  running s = false ->
  capture_steps_left (capture s') < capture_steps_left (capture s) /\
  reads [e] + reads_left (capture s') <= reads_left (capture s) /\
  pushes [e] + pushes_left (capture s') <= pushes_left (capture s).
Proof.
  destruct 1; intros Hrun; pipeline_fields;
    repeat match goal with
           | H : capture _ = _ |- _ => rewrite H
           end;
    rewrite ?Hrun; split_ifs; cbn; lia.
Qed.

Lemma main_step_keeps_capture (s s' : pipeline) (e : event) :
  main s e s' ->
  capture s' = capture s /\ reads [e] = 0 /\ pushes [e] = 0.
Proof.
  destruct 1; subst; pipeline_fields; repeat split;
    destruct (frame_empty (frame s)); reflexivity.
Qed.

Lemma reads_cons (e : event) (h : list event) :
  reads (e :: h) = reads [e] + reads h.
Proof. destruct e; reflexivity. Qed.

Lemma pushes_cons (e : event) (h : list event) :
  pushes (e :: h) = pushes [e] + pushes h.
Proof. destruct e; reflexivity. Qed.

(** X10.  Once [running] is [false] the capture thread winds down: each
    of its steps brings it nearer to its return, which is at most 4 steps
    away, and the steps of [main] do not move it.  So in a run that starts
    with [running] false the capture thread reads at most one more frame
    and pushes at most one more, those of the turn of the loop it is in;
    none if it is at the top of its loop. *)
Theorem X10_capture_thread_winds_down :
  (forall (s s' : pipeline) (e : event),
      captureThread s e s' ->
      running s = false ->
      capture_steps_left (capture s') < capture_steps_left (capture s)) /\
  (forall (s s' : pipeline) (e : event),
      main s e s' -> capture s' = capture s) /\
  (forall pc : capture_pc,
      capture_steps_left pc <= 4 /\
      (capture_steps_left pc = 0 <-> pc = CapReturned)) /\
  (forall (s0 s : pipeline) (h : list event),
      reaches s0 h s ->
      running s0 = false ->
      reads h + reads_left (capture s) <= reads_left (capture s0) /\
      pushes h + pushes_left (capture s) <= pushes_left (capture s0) /\
      reads h <= 1 /\ pushes h <= 1 /\
      (capture s0 = CapLoop -> reads h = 0 /\ pushes h = 0)).
Proof.
  split; [intros s s' e Hstep Hrun;
          apply (capture_step_winds_down Hstep Hrun) | ].
  split; [intros s s' e Hstep; apply (main_step_keeps_capture Hstep) | ].
  split; [intros pc; destruct pc; cbn; split; try lia;
          split; (discriminate || reflexivity) | ].
  intros s0 s h Hreach Hrun0.
  assert (Hinv : running s = false /\
                 reads h + reads_left (capture s) <= reads_left (capture s0) /\
                 pushes h + pushes_left (capture s)
                 <= pushes_left (capture s0)).
  { induction Hreach as [|h s e s' _ IH Hstep].
    - cbn. repeat split; [exact Hrun0 | lia | lia].
    - destruct IH as (Hrun & Hreads & Hpushes).
      split; [exact (step_running_stays_false Hstep Hrun) | ].
      rewrite reads_cons, pushes_cons.
      destruct Hstep as [Hc | Hm].
      + destruct (capture_step_winds_down Hc Hrun) as (_ & Hr & Hp). lia.
      + destruct (main_step_keeps_capture Hm) as (-> & -> & ->). lia. }
  destruct Hinv as (_ & Hreads & Hpushes).
  split; [exact Hreads | ]. split; [exact Hpushes | ].
  assert (reads_left (capture s0) <= 1) by (destruct (capture s0); cbn; lia).
  assert (pushes_left (capture s0) <= 1) by (destruct (capture s0); cbn; lia).
  split; [lia | ]. split; [lia | ].
  intros Hpc. rewrite Hpc in *. cbn in *. lia.
Qed.

Lemma Forall_subseq (A : Type) (P : A -> Prop) (l1 l2 : list A) :
  subseq l1 l2 -> Forall P l2 -> Forall P l1.
Proof.
  induction 1 as [|x l1 l2 H IH|x l1 l2 H IH]; intros Hall.
  - constructor.
  - inversion Hall; subst. now apply IH.
  - inversion Hall; subst. constructor; [assumption | now apply IH].
Qed.

Lemma no_empty_frame_step (s s' : pipeline) (e : event) :
  no_empty_frame s -> step s e s' -> no_empty_frame s'.
Proof.
  intros (Hqueue & Hread & Hframe & Hshow) Hstep.
  step_cases Hstep; subst.
  all: destruct s as [run fq opened0 cpc dpc fr].
  all: unfold no_empty_frame in *; pipeline_fields; subst.
  all: try solve [repeat split; auto; intros; split_ifs_hyp;
                  try discriminate; congruence].
  - (* push *)
    match goal with
    | Hpush : push _ _ = Some _ |- _ =>
        apply push_result in Hpush as (_ & _ & [[_ [n ->]] | [_ ->]])
    end; (split; [ | split; [discriminate | split; assumption] ]).
    + apply Forall_app. split.
      * exact (Forall_subseq (subseq_skipn n (queue_ fq)) Hqueue).
      * constructor; [now apply Hread | constructor].
    + exact Hqueue.
  - (* pop, the predicate holds at once *)
    destruct fq as [[|f l] m r].
    + rewrite take_front_nil by reflexivity. cbn.
      repeat split; auto. discriminate.
    + rewrite take_front_cons. cbn in *. inversion Hqueue; subst.
      repeat split; auto; try discriminate.
      intros f' H. now injection H as <-.
  - (* pop, woken *)
    destruct fq as [[|f l] m r].
    + rewrite take_front_nil by reflexivity. cbn.
      repeat split; auto. discriminate.
    + rewrite take_front_cons. cbn in *. inversion Hqueue; subst.
      repeat split; auto; try discriminate.
      intros f' H. now injection H as <-.
Qed.

Lemma no_empty_frame_reaches
      (queue_size : N) (h : list event) (s : pipeline) :
  reaches (pipeline_start queue_size) h s -> no_empty_frame s.
Proof.
  induction 1 as [|h s e s' _ IH Hstep].
  - unfold no_empty_frame. cbn. repeat split; auto; discriminate.
  - exact (no_empty_frame_step IH Hstep).
Qed.

(** X8.  In every run of the pipeline the queue holds no empty frame,
    since the capture thread pushes none; so a frame [main] has popped is
    never empty, and the next step of [main] shows it: the test
    [frame.empty()] of [main] never skips a frame. *)
Theorem X8_no_empty_frame_in_pipeline
        (queue_size : N) (h : list event) (s : pipeline) :
  reaches (pipeline_start queue_size) h s ->
  Forall (fun f => mat_empty f = false) (queue_ (frameQueue s)) /\
  (display s = MainShow ->
   exists f,
     frame s = Some f /\ mat_empty f = false /\
     forall e s', main s e s' -> e = EvShow (Some f) /\ display s' = MainKey).
Proof.
  intros Hreach.
  apply no_empty_frame_reaches in Hreach as (Hqueue & _ & Hframe & Hshow).
  split; [exact Hqueue | ].
  intros Hd. destruct (frame s) as [f|] eqn:Hf; [ | now destruct Hshow].
  exists f. split; [reflexivity | ]. split; [now apply Hframe | ].
  intros e s' Hmain.
  destruct Hmain; try congruence.
  rewrite Hf. cbn [frame_empty]. rewrite (Hframe f eq_refl).
  split; reflexivity.
Qed.

Lemma subseq_app_skip (A : Type) (l1 k l2 : list A) :
  subseq (l1 ++ l2) (l1 ++ k ++ l2).
Proof.
  apply subseq_app; [apply subseq_refl | ].
  rewrite <- (app_nil_l l2) at 1.
  apply subseq_app; [apply subseq_nil_l | apply subseq_refl].
Qed.

Lemma order_inv_step (h : list event) (s s' : pipeline) (e : event) :
  order_inv h s -> step s e s' -> order_inv (e :: h) s'.
Proof.
  intros (Hsub & Hreads) Hstep.
  step_cases Hstep; subst.
  all: destruct s as [run fq opened0 cpc dpc fr].
  all: unfold order_inv, popped_frame, read_frame in *;
       pipeline_fields; subst.
  all: cbn [shown pushed_frames read_frames].
  all: rewrite ?app_nil_r in *.
  all: try solve [split; [exact Hsub | split_ifs; now rewrite ?app_nil_r] ].
  all: try solve [split; [split_ifs; exact Hsub | exact Hreads] ].
  - (* cap.read *)
    split; [exact Hsub | ]. rewrite Hreads.
    destruct read_ok; cbn [negb andb]; [ | now rewrite app_nil_r].
    destruct (mat_empty frame0); cbn [negb]; now rewrite ?app_nil_r.
  - (* push *)
    split; [ | exact Hreads].
    match goal with
    | |- context [shown h ++ ?m ++ queue_ _] => set (popped := m) in *
    end.
    match goal with
    | Hpush : push _ _ = Some _ |- _ =>
        apply push_result in Hpush as (_ & _ & [[_ [n ->]] | [_ ->]])
    end.
    + rewrite !app_assoc. apply subseq_app; [ | apply subseq_refl].
      apply (subseq_trans (l2 := (shown h ++ popped) ++ queue_ fq));
        [ | now rewrite <- app_assoc].
      apply subseq_app; [apply subseq_refl | apply subseq_skipn].
    + apply (subseq_trans Hsub).
      rewrite <- (app_nil_r (pushed_frames h)) at 1.
      apply subseq_app; [apply subseq_refl | apply subseq_nil_l].
  - (* pop, the predicate holds at once *)
    split; [ | exact Hreads].
    destruct fq as [[|f l] m r].
    + now rewrite take_front_nil by reflexivity.
    + now rewrite take_front_cons.
  - (* pop, woken *)
    split; [ | exact Hreads].
    destruct fq as [[|f l] m r].
    + now rewrite take_front_nil by reflexivity.
    + now rewrite take_front_cons.
  - (* show *)
    destruct fr as [f|]; cbn [frame_empty].
    + destruct (mat_empty f); cbn [app]; rewrite ?app_nil_r.
      * split; [ | exact Hreads].
        apply (subseq_trans (subseq_app_skip (shown h) [f] (queue_ fq))).
        exact Hsub.
      * split; [ | exact Hreads]. now rewrite <- app_assoc.
    + cbn [app]. rewrite ?app_nil_r. split; [exact Hsub | exact Hreads].
Qed.

Lemma order_inv_reaches (queue_size : N) (h : list event) (s : pipeline) :
  reaches (pipeline_start queue_size) h s -> order_inv h s.
Proof.
  induction 1 as [|h s e s' _ IH Hstep].
  - split; [apply subseq_nil | reflexivity].
  - exact (order_inv_step IH Hstep).
Qed.

Lemma subseq_app_l (A : Type) (l1 l2 l : list A) :
  subseq (l1 ++ l2) l -> subseq l1 l.
Proof.
  apply subseq_trans. rewrite <- (app_nil_r l1) at 1.
  apply subseq_app; [apply subseq_refl | apply subseq_nil_l].
Qed.

(** X11.  In every run of the pipeline the frames keep their order from
    the capture source to the display.  The frames pushed are exactly the
    good frames read (the read succeeded and the frame is not empty), in
    the order read, but for the one just read and not yet pushed.  The
    frames shown so far, followed by the frame [main] has popped and not
    yet shown, followed by the frames in the queue, are some of the frames
    pushed, in the order pushed.  So the frames shown are frames that were
    read, in the order they were read, none shown twice; and never more
    are shown than were pushed. *)
Theorem X11_frames_shown_in_capture_order
        (queue_size : N) (h : list event) (s : pipeline) :
  reaches (pipeline_start queue_size) h s ->
  pushed_frames h ++ read_frame s = read_frames h /\
  subseq (shown h ++ popped_frame s ++ queue_ (frameQueue s))
         (pushed_frames h) /\
  subseq (shown h) (read_frames h) /\
  length (shown h) <= length (pushed_frames h).
Proof.
  intros Hreach. apply order_inv_reaches in Hreach as (Hsub & Hreads).
  split; [exact Hreads | ]. split; [exact Hsub | ].
  apply subseq_app_l in Hsub.
  split; [ | now apply subseq_length].
  apply (subseq_trans Hsub). rewrite <- Hreads.
  rewrite <- (app_nil_r (pushed_frames h)) at 1.
  apply subseq_app; [apply subseq_refl | apply subseq_nil_l].
Qed.

(** X16.  [is_running()] answers [true] from the construction of the
    queue up to the first [stop()] and [false] ever after: after a script
    of calls it is [true] exactly if it was before and the script has no
    [stop]; [push] and [pop] never change it, overflow or not. *)
Theorem X16_is_running_until_stop
        (ops : list op) (q q' : FrameQueue) (delivered : list Frame) :
  run ops q = Some (delivered, q') ->
  is_running q' = is_running q && forallb is_push_or_pop ops.
Proof.
  unfold is_running. revert q delivered.
  induction ops as [|o ops IH]; intros q d; cbn [run forallb].
  - intros H. injection H as <- <-. now rewrite andb_true_r.
  - destruct o as [f | t | ]; cbn [is_push_or_pop andb].
    + destruct (push f q) as [q1|] eqn:Hpush; [ | discriminate].
      apply push_result in Hpush as (_ & <- & _). apply IH.
    + destruct (pop_alone t q) as (r & -> & _ & <- & _).
      destruct (run ops (after r)) as [[d' q'']|] eqn:Hrun; [ | discriminate].
      intros H. injection H as <- <-. exact (IH _ _ Hrun).
    + intros H. apply IH in H. rewrite H. cbn. now rewrite andb_false_r.
Qed.

(** ** The throughput counters *)

Lemma count_frame_counts (current_time : Z) (c : throughput) :
  (0 <= frame_count c < INT_MAX)%Z ->
  exists c' stored,
    count_frame current_time c = Some (c', stored) /\
    (0 <= frame_count c')%Z /\
    match stored with
    | Some v =>
        v = (frame_count c + 1)%Z /\ frame_count c' = 0%Z /\
        last_time c' = current_time /\
        (1000 <= elapsed_ms current_time (last_time c))%Z
    | None =>
        frame_count c' = (frame_count c + 1)%Z /\
        last_time c' = last_time c
    end.
Proof.
  intros Hrange. unfold count_frame.
  assert (Hlt : (frame_count c <? INT_MAX)%Z = true)
    by (apply Z.ltb_lt; lia).
  rewrite Hlt.
  destruct (1000 <=? elapsed_ms current_time (last_time c))%Z eqn:Hwin.
  - apply Z.leb_le in Hwin. do 2 eexists. split; [reflexivity | ].
    cbn. repeat split; auto; lia.
  - do 2 eexists. split; [reflexivity | ]. cbn. repeat split; lia.
Qed.

(** X14.  The throughput counter loses no frame.  As long as fewer than
    [2^31] frames are counted in all, counting has defined behaviour, and
    the values stored to the frames-per-second variable add up, together
    with the count not yet stored, to the number of frames handled; each
    value stored counts at least one frame. *)
Theorem X14_throughput_counts_every_frame
        (times : list Z) (c : throughput) :
  (0 <= frame_count c)%Z ->
  (frame_count c + Z.of_nat (length times) <= INT_MAX)%Z ->
  exists c' values,
    count_frames times c = Some (c', values) /\
    (total values + frame_count c'
     = frame_count c + Z.of_nat (length times))%Z /\
    Forall (fun v => 1 <= v <= INT_MAX)%Z values /\
    (0 <= frame_count c')%Z.
Proof.
  revert c. induction times as [|t times IH]; intros c Hpos Hmax.
  - exists c, []. cbn in *. repeat split; auto; lia.
  - cbn [length] in *. cbn [count_frames].
    destruct (count_frame_counts t c) as (c1 & stored & -> & Hpos1 & Hstored);
      [lia | ].
    destruct stored as [v|].
    + destruct Hstored as (-> & Hzero & _ & _).
      destruct (IH c1) as (c' & values & -> & Hsum & Hall & Hpos');
        [lia | lia | ].
      do 2 eexists. split; [reflexivity | ].
      split; [ | split; [ | exact Hpos'] ].
      * cbn [total fold_right]. fold (total values). lia.
      * constructor; [lia | exact Hall].
    + destruct Hstored as (Hcount & _).
      destruct (IH c1) as (c' & values & -> & Hsum & Hall & Hpos');
        [lia | lia | ].
      do 2 eexists. split; [reflexivity | ].
      split; [lia | ]. split; [exact Hall | exact Hpos'].
Qed.

(** ** The kernel of opencl-native *)

Lemma store_at_stores (F : Type) (buffer : list F) (i : nat) (v : F) :
  i < length buffer ->
  exists buffer',
    store_at buffer i v = Some buffer' /\
    length buffer' = length buffer /\
    forall j, nth_error buffer' j =
              if j =? i then Some v else nth_error buffer j.
Proof.
  revert i. induction buffer as [|x rest IH]; intros i Hi; cbn in Hi.
  - lia.
  - destruct i as [|i]; cbn [store_at].
    + eexists. split; [reflexivity | ]. split; [reflexivity | ].
      intros [|j]; reflexivity.
    + destruct (IH i) as (rest' & -> & Hlen & Hnth); [lia | ].
      eexists. split; [reflexivity | ]. split; [cbn; now rewrite Hlen | ].
      intros [|j]; [reflexivity | ]. cbn. apply Hnth.
Qed.

Lemma small_global_id (g : Z) :
  (0 <= g < 2 ^ 31)%Z ->
  int_of_size_t g = g /\ uint_of_int g = g.
Proof.
  intros Hg. unfold int_of_size_t, uint_of_int.
  rewrite !Z.mod_small by lia. lia.
Qed.

Lemma vector_add_item (F : Type) (add : F -> F -> F)
      (A B C : list F) (n g : Z) :
  (0 <= g < 2 ^ 31)%Z ->
  (n <= Z.of_nat (length A))%Z ->
  (n <= Z.of_nat (length B))%Z ->
  (n <= Z.of_nat (length C))%Z ->
  exists C',
    vector_add add A B C n g = Some C' /\
    length C' = length C /\
    forall j, nth_error C' j =
              if (Z.of_nat j =? g)%Z && (Z.of_nat j <? n)%Z
              then sum_at add A B j else nth_error C j.
Proof.
  intros Hg HA HB HC. unfold vector_add.
  destruct (small_global_id Hg) as [-> Hu]. rewrite Hu.
  destruct (g <? n)%Z eqn:Hlt.
  - apply Z.ltb_lt in Hlt. unfold load, store.
    assert (Hneg : (g <? 0)%Z = false) by (apply Z.ltb_ge; lia).
    rewrite Hneg.
    destruct (nth_error A (Z.to_nat g)) as [a|] eqn:Ha;
      [ | apply nth_error_None in Ha; lia].
    destruct (nth_error B (Z.to_nat g)) as [b|] eqn:Hb;
      [ | apply nth_error_None in Hb; lia].
    destruct (store_at_stores C (i := Z.to_nat g) (add a b))
      as (C' & -> & Hlen & Hnth); [lia | ].
    exists C'. split; [reflexivity | ]. split; [exact Hlen | ].
    intros j. rewrite Hnth.
    destruct (j =? Z.to_nat g) eqn:Hj.
    + apply Nat.eqb_eq in Hj. subst j. rewrite Z2Nat.id by lia.
      rewrite Z.eqb_refl, (proj2 (Z.ltb_lt _ _) Hlt). cbn [andb].
      unfold sum_at. now rewrite Ha, Hb.
    + apply Nat.eqb_neq in Hj.
      assert (Hne : (Z.of_nat j =? g)%Z = false) by (apply Z.eqb_neq; lia).
      now rewrite Hne.
  - exists C. split; [reflexivity | ]. split; [reflexivity | ].
    intros j. destruct (Z.of_nat j =? g)%Z eqn:Hj; [ | reflexivity].
    apply Z.eqb_eq in Hj. rewrite Hj, Hlt. reflexivity.
Qed.

Lemma run_work_items_any_order (F : Type) (add : F -> F -> F)
      (A B : list F) (n : Z) (order : list Z) (C : list F) :
  (forall g, In g order -> 0 <= g < 2 ^ 31)%Z ->
  (n <= Z.of_nat (length A))%Z ->
  (n <= Z.of_nat (length B))%Z ->
  (n <= Z.of_nat (length C))%Z ->
  exists C',
    run_work_items add A B n order C = Some C' /\
    length C' = length C /\
    forall j, nth_error C' j =
              if existsb (Z.eqb (Z.of_nat j)) order && (Z.of_nat j <? n)%Z
              then sum_at add A B j else nth_error C j.
Proof.
  intros Hids HA HB. revert C.
  induction order as [|g order IH]; intros C HC; cbn [run_work_items].
  - exists C. repeat split.
  - destruct (vector_add_item add A B C (n := n) (g := g))
      as (C1 & -> & Hlen1 & Hnth1); auto.
    { apply Hids. now left. }
    destruct (IH (fun g' Hin => Hids g' (or_intror Hin)) C1)
      as (C' & -> & Hlen & Hnth); [now rewrite Hlen1 | ].
    exists C'. split; [reflexivity | ]. split; [now rewrite Hlen | ].
    intros j. rewrite Hnth, Hnth1. cbn [existsb].
    destruct (existsb (Z.eqb (Z.of_nat j)) order);
      destruct (Z.of_nat j =? g)%Z;
      destruct (Z.of_nat j <? n)%Z; reflexivity.
Qed.

(** X15.  The kernel [vector_add] run over an index space of up to [2^31]
    work-items, on buffers of at least [n] elements: in whatever order the
    work-items run (each at least once), no buffer is accessed outside its
    bounds, and afterwards [C] holds [A[j] + B[j]] at every index [j]
    below both [n] and the size of the index space, and is unchanged
    elsewhere.  ([main] uses 1024 for [n], for the index space and for the
    buffers.) *)
Theorem X15_vector_add_any_order (F : Type) (add : F -> F -> F)
        (A B C : list F) (n global_size : Z) (order : list Z) :
  (global_size <= 2 ^ 31)%Z ->
  (forall g, In g order <-> 0 <= g < global_size)%Z ->
  (n <= Z.of_nat (length A))%Z ->
  (n <= Z.of_nat (length B))%Z ->
  (n <= Z.of_nat (length C))%Z ->
  exists C',
    run_work_items add A B n order C = Some C' /\
    length C' = length C /\
    forall j, nth_error C' j =
              if (Z.of_nat j <? Z.min n global_size)%Z
              then sum_at add A B j else nth_error C j.
Proof.
  intros Hsize Horder HA HB HC.
  destruct (run_work_items_any_order add A B order C (n := n))
    as (C' & Hrun & Hlen & Hnth); auto.
  { intros g Hin. apply Horder in Hin. lia. }
  exists C'. split; [exact Hrun | ]. split; [exact Hlen | ].
  intros j. rewrite Hnth.
  destruct (existsb (Z.eqb (Z.of_nat j)) order) eqn:Hin.
  - apply existsb_exists in Hin as (g & Hg & Heq).
    apply Z.eqb_eq in Heq. subst g. apply Horder in Hg.
    cbn [andb].
    destruct (Z.of_nat j <? n)%Z eqn:Hn.
    + apply Z.ltb_lt in Hn.
      now rewrite (proj2 (Z.ltb_lt _ _)) by lia.
    + apply Z.ltb_ge in Hn.
      now rewrite (proj2 (Z.ltb_ge _ _)) by lia.
  - cbn [andb].
    destruct (Z.of_nat j <? Z.min n global_size)%Z eqn:Hmin; [ | reflexivity].
    apply Z.ltb_lt in Hmin.
    assert (Hg : In (Z.of_nat j) order) by (apply Horder; lia).
    assert (Hex : existsb (Z.eqb (Z.of_nat j)) order = true).
    { apply existsb_exists. exists (Z.of_nat j).
      split; [exact Hg | apply Z.eqb_refl]. }
    congruence.
Qed.

(** ** main of opencl-native *)


End Pipeline.

(** * The theorems at concrete inputs

    Frames are numbered; frame 0 is the empty one. *)

Lemma C1_fifo_without_overflow_witness :
  running_ (@FrameQueue_new nat 2) = true /\
  forallb is_push_or_pop
    [OpPush 1; OpPush 2; OpPop 1000; OpPush 3; OpPop 0; OpPop 1000;
     OpPop 10] = true /\
  no_overflow
    [OpPush 1; OpPush 2; OpPop 1000; OpPush 3; OpPop 0; OpPop 1000;
     OpPop 10] (FrameQueue_new 2) = true /\
  exists delivered q',
    run [OpPush 1; OpPush 2; OpPop 1000; OpPush 3; OpPop 0; OpPop 1000;
         OpPop 10] (FrameQueue_new 2) = Some (delivered, q') /\
    queue_ (@FrameQueue_new nat 2) ++
      pushed [OpPush 1; OpPush 2; OpPop 1000; OpPush 3; OpPop 0; OpPop 1000;
              OpPop 10]
    = delivered ++ queue_ q' /\
    running_ q' = true.
Proof.
  split; [reflexivity | ]. split; [reflexivity | ]. split; [reflexivity | ].
  apply C1_fifo_without_overflow; reflexivity.
Defined.

Lemma C2_push_on_full_drops_oldest_witness :
  running_ {| queue_ := [1; 2; 3]; max_size_ := 2; running_ := true |}
  = true /\
  (1 <= 2)%N /\
  (2 <= size {| queue_ := [1; 2; 3]; max_size_ := 2; running_ := true |})%N /\
  exists removed kept,
    [1; 2; 3] = removed ++ kept /\
    removed <> [] /\
    N.of_nat (length kept) = (2 - 1)%N /\
    push 9 {| queue_ := [1; 2; 3]; max_size_ := 2; running_ := true |}
    = Some {| queue_ := kept ++ [9]; max_size_ := 2; running_ := true |}.
Proof.
  split; [reflexivity | ]. split; [lia | ].
  split; [unfold size; simpl; lia | ].
  apply (proj1 (@C2_push_on_full_drops_oldest nat) 9
               {| queue_ := [1; 2; 3]; max_size_ := 2; running_ := true |}).
  - reflexivity.
  - simpl. lia.
  - unfold size. simpl. lia.
Defined.

Lemma C3_size_never_exceeds_capacity_witness :
  (1 <= 2)%N /\
  exists delivered q,
    run [OpPush 1; OpPush 2; OpPush 3; OpPop 5; OpStop; OpPush 4]
        (FrameQueue_new 2) = Some (delivered, q) /\
    (size q <= 2)%N.
Proof.
  split; [lia | ].
  apply (proj1 (@C3_size_never_exceeds_capacity nat 2 ltac:(lia))).
Defined.

Lemma C5_push_after_stop_is_noop_witness :
  running_ (stop {| queue_ := [1; 2]; max_size_ := 2; running_ := true |})
  = false /\
  push 9 (stop {| queue_ := [1; 2]; max_size_ := 2; running_ := true |})
  = Some (stop {| queue_ := [1; 2]; max_size_ := 2; running_ := true |}).
Proof.
  split; [reflexivity | ].
  apply (C5_push_after_stop_is_noop 9
           (stop {| queue_ := [1; 2]; max_size_ := 2; running_ := true |})).
  reflexivity.
Defined.

Lemma C8_pop_nonpositive_timeout_polls_witness :
  (-5 <= 0)%Z /\
  pop (-5) [{| slept := 0; during := [ActPush 7] |}]
      {| queue_ := [1; 2]; max_size_ := 2; running_ := true |}
  = Some {| ok := true; frame_out := Some 1;
            after := {| queue_ := [2]; max_size_ := 2; running_ := true |};
            waited_ms := 0 |}.
Proof.
  split; [lia | ].
  apply (C8_pop_nonpositive_timeout_polls
           [{| slept := 0; during := [ActPush 7] |}]
           {| queue_ := [1; 2]; max_size_ := 2; running_ := true |}).
  lia.
Defined.

Lemma C9_pop_only_removes_front_witness :
  pop 100 [{| slept := 10; during := [ActPush 7; ActPush 8] |}]
      (FrameQueue_new 2)
  = Some {| ok := true; frame_out := Some 7;
            after := {| queue_ := [8]; max_size_ := 2; running_ := true |};
            waited_ms := 10 |} /\
  exists satisfied q1 w,
    wait_for [{| slept := 10; during := [ActPush 7; ActPush 8] |}] 100 0
             (FrameQueue_new 2) = Some (satisfied, q1, w) /\
    (true = false ->
     {| queue_ := [8]; max_size_ := 2; running_ := true |} = q1 /\
     Some 7 = None) /\
    (true = true ->
     exists front,
       Some 7 = Some front /\
       queue_ q1 = front :: [8] /\
       true = running_ q1 /\
       2%N = max_size_ q1).
Proof.
  split; [reflexivity | ].
  apply (proj2 (@C9_pop_only_removes_front nat) 100%Z
               [{| slept := 10; during := [ActPush 7; ActPush 8] |}]
               (FrameQueue_new 2)
               {| ok := true; frame_out := Some 7;
                  after := {| queue_ := [8]; max_size_ := 2;
                              running_ := true |};
                  waited_ms := 10 |}).
  reflexivity.
Defined.

Lemma C10_drop_loop_terminates_witness :
  (1 <= 2)%N /\
  exists removed kept,
    drop_oldest 2 true [1; 2; 3] = Some kept /\
    [1; 2; 3] = removed ++ kept /\
    length removed = 2 /\
    length removed <= 2.
Proof.
  split; [lia | ].
  apply (proj1 (@C10_drop_loop_terminates nat) 2%N true [1; 2; 3]).
  lia.
Defined.


Lemma C7_running_flag_monotonic_witness :
  reaches (fun f => f =? 0) (pipeline_start 5)
          [EvStoreRunning; EvOpen false]
          {| running := false;
             frameQueue := @FrameQueue_new nat 5;
             cap_isOpened := false;
             capture := CapFailStop;
             display := MainLoop;
             frame := None |} /\
  stores [@EvStoreRunning nat; EvOpen false] <= 1 /\
  false = (stores [@EvStoreRunning nat; EvOpen false] =? 0).
Proof.
  assert (Hreach :
            reaches (fun f => f =? 0) (pipeline_start 5)
                    [EvStoreRunning; EvOpen false]
                    {| running := false;
                       frameQueue := @FrameQueue_new nat 5;
                       cap_isOpened := false;
                       capture := CapFailStop;
                       display := MainLoop;
                       frame := None |}).
  { apply reaches_step
      with (s := {| running := true;
                    frameQueue := FrameQueue_new 5;
                    cap_isOpened := false;
                    capture := CapFailFlag;
                    display := MainLoop;
                    frame := None |});
      [ | apply step_capture; apply (capture_fail_flag (fun f => f =? 0)); reflexivity].
    apply reaches_step with (s := pipeline_start 5);
      [apply reaches_start | ].
    apply step_capture.
    apply (capture_open (fun f => f =? 0) (pipeline_start 5) false).
    reflexivity. }
  split; [exact Hreach | ].
  exact (proj1 (proj2 (proj2 (proj2 (proj2
           (C7_running_flag_monotonic (fun f : nat => f =? 0))))))
           5%N _ _ Hreach).
Defined.

(** ** Runs of the model *)

(** Three frames into a queue of capacity 2: the oldest is dropped. *)
Example overflow_drops_frame_1 :
  run [OpPush 1; OpPush 2; OpPush 3; OpPop 1000; OpPop 1000; OpPop 50]
      (FrameQueue_new 2)
  = Some ([2; 3], FrameQueue_new 2).
Proof. reflexivity. Qed.

(** A [pop] on an empty open queue that nobody feeds waits out its
    timeout. *)
Example pop_times_out :
  pop 1000 [] (@FrameQueue_new nat 5)
  = Some {| ok := false; frame_out := None; after := FrameQueue_new 5;
            waited_ms := 1000 |}.
Proof. reflexivity. Qed.

(** A [pop] woken after 30 ms by a push delivers the frame pushed. *)
Example pop_woken_by_push :
  pop 1000 [{| slept := 30; during := [ActPush 7] |}] (FrameQueue_new 5)
  = Some {| ok := true; frame_out := Some 7; after := FrameQueue_new 5;
            waited_ms := 30 |}.
Proof. reflexivity. Qed.

(** A push that would come after the deadline is not seen. *)
Example pop_deadline_first :
  pop 20 [{| slept := 30; during := [ActPush 7] |}] (FrameQueue_new 5)
  = Some {| ok := false; frame_out := None; after := FrameQueue_new 5;
            waited_ms := 20 |}.
Proof. reflexivity. Qed.

(** Queue size 0 on the command line: the first [push] is undefined. *)
Example push_capacity_0 :
  push 1 (FrameQueue_new (main_queue_size (Some 0%Z))) = None.
Proof. reflexivity. Qed.

(** No sixth argument: queue size 5. *)
Example main_queue_size_default : main_queue_size None = 5%N.
Proof. reflexivity. Qed.

(** A run in which the source opens, one frame goes through the queue to
    the display, and the user leaves with [q]. *)
Example pipeline_normal_run :
  reaches (fun f => f =? 0) (pipeline_start 5)
    [EvJoin; EvSilent; EvSilent; EvQueueStop; EvStoreRunning; EvKey 113;
     EvShow (Some 7); EvPopReturn true; EvSilent; EvSilent;
     EvPush 7; EvRead true 7; EvSilent; EvOpen true]
    {| running := false;
       frameQueue := stop (FrameQueue_new 5);
       cap_isOpened := true;
       capture := CapReturned;
       display := MainReturned;
       frame := Some 7 |}.
Proof.
  pose (me := fun f : nat => f =? 0).
  pose (q0 := @FrameQueue_new nat 5).
  pose (q1 := {| queue_ := [7]; max_size_ := 5%N; running_ := true |}).
  pose (st := fun r (q : @FrameQueue nat) c d f =>
                {| running := r; frameQueue := q; cap_isOpened := true;
                   capture := c; display := d; frame := f |}).
  (* main: join *)
  apply reaches_step
    with (s := st false (stop q0) CapReturned MainJoin (Some 7));
    [ | exact (step_main (main_join me (st _ _ _ _ _) eq_refl eq_refl))].
  (* capture: cap.release() *)
  apply reaches_step
    with (s := st false (stop q0) CapRelease MainJoin (Some 7));
    [ | exact (step_capture (capture_release me (st _ _ _ _ _) eq_refl))].
  (* capture: while (running) is false *)
  apply reaches_step
    with (s := st false (stop q0) CapLoop MainJoin (Some 7));
    [ | exact (step_capture (capture_loop me (st _ _ _ _ _) eq_refl))].
  (* main: frameQueue.stop() *)
  apply reaches_step
    with (s := st false q0 CapLoop MainStop (Some 7));
    [ | exact (step_main (main_stop me (st _ _ _ _ _) eq_refl))].
  (* main: running = false *)
  apply reaches_step
    with (s := st true q0 CapLoop MainKeyExit (Some 7));
    [ | exact (step_main (main_key_exit me (st _ _ _ _ _) eq_refl))].
  (* main: waitKey gives 'q' *)
  apply reaches_step
    with (s := st true q0 CapLoop MainKey (Some 7));
    [ | exact (step_main (main_key me (st _ _ _ _ _) 113 eq_refl))].
  (* main: imshow *)
  apply reaches_step
    with (s := st true q0 CapLoop MainShow (Some 7));
    [ | exact (step_main (main_show me (st _ _ _ _ _) eq_refl))].
  (* main: pop returns the frame *)
  apply reaches_step
    with (s := st true q1 CapLoop MainPop None);
    [ | exact (step_main
                 (main_pop_ready me (st true q1 CapLoop MainPop None)
                                 eq_refl eq_refl eq_refl))].
  (* main: loop condition, in two reads *)
  apply reaches_step
    with (s := st true q1 CapLoop MainLoopQueue None);
    [ | exact (step_main (main_loop_queue me (st _ _ _ _ _) eq_refl))].
  apply reaches_step
    with (s := st true q1 CapLoop MainLoop None);
    [ | exact (step_main (main_loop me (st _ _ _ _ _) eq_refl))].
  (* capture: push, read, loop condition, open *)
  apply reaches_step
    with (s := st true q0 (CapPush 7) MainLoop None);
    [ | exact (step_capture
                 (capture_push me (st true q0 (CapPush 7) MainLoop None)
                               eq_refl eq_refl))].
  apply reaches_step
    with (s := st true q0 CapRead MainLoop None);
    [ | exact (step_capture (capture_read me (st _ _ _ _ _) true 7 eq_refl))].
  apply reaches_step
    with (s := st true q0 CapLoop MainLoop None);
    [ | exact (step_capture (capture_loop me (st _ _ _ _ _) eq_refl))].
  apply reaches_step with (s := pipeline_start 5);
    [apply reaches_start | ].
  exact (step_capture (capture_open me (pipeline_start 5) true eq_refl)).
Qed.


(** A run up to the moment [main] has popped its first frame. *)
Example pipeline_first_pop_run :
  reaches (fun f => f =? 0) (pipeline_start 5)
    [EvPopReturn true; EvSilent; EvSilent;
     EvPush 7; EvRead true 7; EvSilent; EvOpen true]
    {| running := true;
       frameQueue := FrameQueue_new 5;
       cap_isOpened := true;
       capture := CapLoop;
       display := MainShow;
       frame := Some 7 |}.
Proof.
  pose (me := fun f : nat => f =? 0).
  pose (q0 := @FrameQueue_new nat 5).
  pose (q1 := {| queue_ := [7]; max_size_ := 5%N; running_ := true |}).
  pose (st := fun r (q : @FrameQueue nat) c d f =>
                {| running := r; frameQueue := q; cap_isOpened := true;
                   capture := c; display := d; frame := f |}).
  apply reaches_step
    with (s := st true q1 CapLoop MainPop None);
    [ | exact (step_main
                 (main_pop_ready me (st true q1 CapLoop MainPop None)
                                 eq_refl eq_refl eq_refl))].
  apply reaches_step
    with (s := st true q1 CapLoop MainLoopQueue None);
    [ | exact (step_main (main_loop_queue me (st _ _ _ _ _) eq_refl))].
  apply reaches_step
    with (s := st true q1 CapLoop MainLoop None);
    [ | exact (step_main (main_loop me (st _ _ _ _ _) eq_refl))].
  apply reaches_step
    with (s := st true q0 (CapPush 7) MainLoop None);
    [ | exact (step_capture
                 (capture_push me (st true q0 (CapPush 7) MainLoop None)
                               eq_refl eq_refl))].
  apply reaches_step
    with (s := st true q0 CapRead MainLoop None);
    [ | exact (step_capture
                 (capture_read me (st _ _ _ _ _) true 7 eq_refl))].
  apply reaches_step
    with (s := st true q0 CapLoop MainLoop None);
    [ | exact (step_capture (capture_loop me (st _ _ _ _ _) eq_refl))].
  apply reaches_step with (s := pipeline_start 5);
    [apply reaches_start | ].
  exact (step_capture (capture_open me (pipeline_start 5) true eq_refl)).
Qed.

(** The last steps of the capture thread once [running] is [false]. *)
Example capture_leaves_loop_run :
  reaches (fun f => f =? 0)
    {| running := false; frameQueue := FrameQueue_new 5;
       cap_isOpened := true; capture := CapLoop;
       display := MainStop; frame := Some 7 |}
    [EvSilent; EvSilent]
    {| running := false; frameQueue := FrameQueue_new 5;
       cap_isOpened := true; capture := CapReturned;
       display := MainStop; frame := Some 7 |}.
Proof.
  pose (me := fun f : nat => f =? 0).
  pose (st := fun c =>
                {| running := false; frameQueue := @FrameQueue_new nat 5;
                   cap_isOpened := true; capture := c;
                   display := MainStop; frame := Some 7 |}).
  apply reaches_step with (s := st CapRelease);
    [ | exact (step_capture (capture_release me (st _) eq_refl))].
  apply reaches_step with (s := st CapLoop);
    [apply reaches_start | ].
  exact (step_capture (capture_loop me (st _) eq_refl)).
Qed.

Lemma X1_queue_keeps_newest_frames_witness :
  (1 <= 2)%N /\
  running_ (@FrameQueue_new nat 2) = true /\
  within_capacity 2 (@FrameQueue_new nat 2) /\
  run (push_all [1; 2; 3]) (FrameQueue_new 2) =
  Some ([], {| queue_ := [2; 3]; max_size_ := 2; running_ := true |}).
Proof.
  assert (Hcap : (1 <= 2)%N) by lia.
  assert (Hwithin : within_capacity 2 (@FrameQueue_new nat 2))
    by (split; [reflexivity | unfold size; simpl; lia]).
  split; [exact Hcap | ]. split; [reflexivity | ]. split; [exact Hwithin | ].
  exact (@X1_queue_keeps_newest_frames nat 2%N [1; 2; 3] (FrameQueue_new 2)
           Hcap eq_refl Hwithin).
Defined.

Lemma X2_frames_keep_their_order_witness :
  (1 <= max_size_ (@FrameQueue_new nat 2))%N /\
  exists delivered q',
    run [OpPush 1; OpPush 2; OpPush 3; OpPop 10; OpStop; OpPush 4; OpPop 0]
        (FrameQueue_new 2) = Some (delivered, q') /\
    subseq (delivered ++ queue_ q')
           (queue_ (@FrameQueue_new nat 2) ++
            pushed [OpPush 1; OpPush 2; OpPush 3; OpPop 10; OpStop;
                    OpPush 4; OpPop 0]).
Proof.
  assert (Hcap : (1 <= max_size_ (@FrameQueue_new nat 2))%N)
    by (simpl; lia).
  split; [exact Hcap | ].
  exact (X2_frames_keep_their_order
           [OpPush 1; OpPush 2; OpPush 3; OpPop 10; OpStop; OpPush 4;
            OpPop 0] (FrameQueue_new 2) Hcap).
Defined.

Lemma X3_stopped_queue_only_drains_witness :
  running_ (stop {| queue_ := [1; 2]; max_size_ := 2; running_ := true |})
  = false /\
  exists delivered q',
    run [OpPush 3; OpPop 0; OpPush 4]
        (stop {| queue_ := [1; 2]; max_size_ := 2; running_ := true |})
    = Some (delivered, q') /\
    delivered ++ queue_ q' = [1; 2] /\
    running_ q' = false /\
    (size q' <=
     size (stop {| queue_ := [1; 2]; max_size_ := 2; running_ := true |}))%N.
Proof.
  split; [reflexivity | ].
  exact (X3_stopped_queue_only_drains
           [OpPush 3; OpPop 0; OpPush 4]
           (stop {| queue_ := [1; 2]; max_size_ := 2; running_ := true |})
           eq_refl).
Defined.


Lemma X5_pop_fails_only_when_empty_witness :
  pop 100 [{| slept := 30; during := [] |}] (@FrameQueue_new nat 2)
  = Some {| ok := false; frame_out := None; after := FrameQueue_new 2;
            waited_ms := 100 |} /\
  false = false /\
  queue_ (@FrameQueue_new nat 2) = [] /\
  @None nat = None /\
  (running_ (@FrameQueue_new nat 2) = true -> 100%Z = Z.max 0 100).
Proof.
  assert (Hpop :
            pop 100 [{| slept := 30; during := [] |}] (@FrameQueue_new nat 2)
            = Some {| ok := false; frame_out := None;
                      after := FrameQueue_new 2; waited_ms := 100 |})
    by reflexivity.
  split; [exact Hpop | ]. split; [reflexivity | ].
  exact (X5_pop_fails_only_when_empty _ _ _ Hpop eq_refl).
Defined.

Lemma X6_push_wakes_pop_witness :
  ready (@FrameQueue_new nat 2) = false /\
  (1 <= max_size_ (@FrameQueue_new nat 2))%N /\
  (Z.of_N 30 < 100)%Z /\
  pop 100 [{| slept := 30; during := [ActPush 7] |}] (FrameQueue_new 2)
  = Some {| ok := true; frame_out := Some 7; after := FrameQueue_new 2;
            waited_ms := Z.of_N 30 |}.
Proof.
  assert (Hcap : (1 <= max_size_ (@FrameQueue_new nat 2))%N)
    by (simpl; lia).
  assert (Hnap : (Z.of_N 30 < 100)%Z) by lia.
  split; [reflexivity | ]. split; [exact Hcap | ]. split; [exact Hnap | ].
  exact (@X6_push_wakes_pop nat 100%Z 30%N 7 [] (FrameQueue_new 2)
           eq_refl Hcap Hnap).
Defined.

Lemma X7_queue_size_from_command_line_witness :
  (- 2 ^ 31 <= -1 < 2 ^ 31)%Z /\
  (main_queue_size (Some (-1)%Z) = 0%N <-> (-1)%Z = 0%Z) /\
  (-1 < 0 -> 2 ^ 63 <= Z.of_N (main_queue_size (Some (-1)%Z)))%Z.
Proof.
  assert (Hint : (- 2 ^ 31 <= -1 < 2 ^ 31)%Z) by lia.
  split; [exact Hint | ].
  destruct (@X7_queue_size_from_command_line nat (-1)%Z Hint)
    as (Hzero & _ & Hneg & _).
  split; [exact Hzero | exact Hneg].
Defined.

Lemma X8_no_empty_frame_in_pipeline_witness :
  exists h s,
    reaches (fun f => f =? 0) (pipeline_start 5) h s /\
    display s = MainShow /\
    Forall (fun f => (f =? 0) = false) (queue_ (frameQueue s)) /\
    exists f, frame s = Some f /\ (f =? 0) = false.
Proof.
  do 2 eexists. split; [exact pipeline_first_pop_run | ].
  split; [reflexivity | ].
  destruct (X8_no_empty_frame_in_pipeline pipeline_first_pop_run)
    as (Hqueue & Hshow).
  split; [exact Hqueue | ].
  destruct (Hshow eq_refl) as (f & Hf & Hne & _).
  exists f. split; [exact Hf | exact Hne].
Defined.

Lemma X9_shutdown_order_witness :
  exists h s,
    reaches (fun f => f =? 0) (pipeline_start 5) h s /\
    display s = MainReturned /\
    running s = false /\
    running_ (frameQueue s) = false /\
    capture s = CapReturned.
Proof.
  do 2 eexists. split; [exact pipeline_normal_run | ].
  split; [reflexivity | ].
  destruct (X9_shutdown_order pipeline_normal_run)
    as (Hleft & Hjoin & Hret).
  split; [exact (Hleft eq_refl) | ].
  split; [exact (Hjoin (or_intror eq_refl)) | ].
  exact (proj1 (Hret eq_refl)).
Defined.

Lemma X10_capture_thread_winds_down_witness :
  exists s0 h s,
    reaches (fun f : nat => f =? 0) s0 h s /\
    running s0 = false /\
    capture s0 = CapLoop /\
    reads h <= 1 /\ pushes h <= 1 /\ reads h = 0 /\ pushes h = 0.
Proof.
  do 3 eexists. split; [exact capture_leaves_loop_run | ].
  split; [reflexivity | ]. split; [reflexivity | ].
  destruct (proj2 (proj2 (proj2
              (X10_capture_thread_winds_down (fun f : nat => f =? 0))))
              _ _ _ capture_leaves_loop_run eq_refl)
    as (_ & _ & Hreads & Hpushes & Htop).
  split; [exact Hreads | ]. split; [exact Hpushes | ].
  exact (Htop eq_refl).
Defined.

Lemma X11_frames_shown_in_capture_order_witness :
  exists h s,
    reaches (fun f => f =? 0) (pipeline_start 5) h s /\
    subseq (shown h) (read_frames (fun f => f =? 0) h) /\
    length (shown h) <= length (pushed_frames h).
Proof.
  do 2 eexists. split; [exact pipeline_normal_run | ].
  destruct (X11_frames_shown_in_capture_order pipeline_normal_run)
    as (_ & _ & Hsub & Hlen).
  split; [exact Hsub | exact Hlen].
Defined.

Lemma X12_pipeline_queue_bounded_witness :
  exists h s,
    (1 <= 5)%N /\
    reaches (fun f => f =? 0) (pipeline_start 5) h s /\
    max_size_ (frameQueue s) = 5%N /\
    (size (frameQueue s) <= 5)%N.
Proof.
  assert (Hcap : (1 <= 5)%N) by lia.
  do 2 eexists. split; [exact Hcap | ].
  split; [exact pipeline_first_pop_run | ].
  exact (X12_pipeline_queue_bounded Hcap pipeline_first_pop_run).
Defined.

Lemma X13_pipeline_never_deadlocks_witness :
  exists h s,
    (1 <= 5)%N /\
    reaches (fun f => f =? 0) (pipeline_start 5) h s /\
    display s <> MainReturned /\
    exists e s', step (fun f => f =? 0) s e s'.
Proof.
  assert (Hcap : (1 <= 5)%N) by lia.
  do 2 eexists. split; [exact Hcap | ].
  split; [exact pipeline_first_pop_run | ].
  split; [discriminate | ].
  destruct (X13_pipeline_never_deadlocks 0 Hcap pipeline_first_pop_run)
    as (_ & _ & Hstep).
  apply Hstep. discriminate.
Defined.

Lemma X14_throughput_counts_every_frame_witness :
  (0 <= frame_count {| frame_count := 0; last_time := 0 |})%Z /\
  (frame_count {| frame_count := 0; last_time := 0 |}
   + Z.of_nat (length [400000000; 800000000; 1200000000; 1500000000]%Z)
   <= INT_MAX)%Z /\
  exists c' values,
    count_frames [400000000; 800000000; 1200000000; 1500000000]%Z
                 {| frame_count := 0; last_time := 0 |}
    = Some (c', values) /\
    (total values + frame_count c' = 0 + 4)%Z.
Proof.
  assert (Hpos : (0 <= frame_count {| frame_count := 0; last_time := 0 |})%Z)
    by (simpl; lia).
  assert (Hmax :
            (frame_count {| frame_count := 0; last_time := 0 |}
             + Z.of_nat
                 (length [400000000; 800000000; 1200000000; 1500000000]%Z)
             <= INT_MAX)%Z)
    by (unfold INT_MAX; simpl; lia).
  split; [exact Hpos | ]. split; [exact Hmax | ].
  destruct (X14_throughput_counts_every_frame _ _ Hpos Hmax)
    as (c' & values & Hrun & Hsum & _).
  exists c', values. split; [exact Hrun | exact Hsum].
Defined.

Lemma X15_vector_add_any_order_witness :
  (3 <= 2 ^ 31)%Z /\
  (forall g, In g [2; 0; 1]%Z <-> 0 <= g < 3)%Z /\
  exists C',
    run_work_items Nat.add [1; 2; 3] [10; 20; 30] 3 [2; 0; 1]%Z [0; 0; 0]
    = Some C' /\
    length C' = 3 /\
    nth_error C' 1 = Some 22.
Proof.
  assert (Hsize : (3 <= 2 ^ 31)%Z) by lia.
  assert (Horder : (forall g, In g [2; 0; 1]%Z <-> 0 <= g < 3)%Z).
  { intros g. cbn [In]. lia. }
  split; [exact Hsize | ]. split; [exact Horder | ].
  destruct (@X15_vector_add_any_order nat Nat.add [1; 2; 3] [10; 20; 30]
              [0; 0; 0] 3 3 [2; 0; 1]%Z Hsize Horder)
    as (C' & Hrun & Hlen & Hnth); try (simpl; lia).
  exists C'. split; [exact Hrun | ]. split; [exact Hlen | ].
  exact (Hnth 1).
Defined.

Lemma X16_is_running_until_stop_witness :
  run [OpPush 1; OpPop 0; OpStop; OpPush 2] (FrameQueue_new 2)
  = Some ([1], stop (FrameQueue_new 2)) /\
  is_running (stop (@FrameQueue_new nat 2))
  = is_running (@FrameQueue_new nat 2) &&
    forallb is_push_or_pop [@OpPush nat 1; OpPop 0; OpStop; OpPush 2].
Proof.
  assert (Hrun :
            run [OpPush 1; OpPop 0; OpStop; OpPush 2] (FrameQueue_new 2)
            = Some ([1], stop (FrameQueue_new 2)))
    by reflexivity.
  split; [exact Hrun | ].
  exact (X16_is_running_until_stop _ _ Hrun).
Defined.

